(** * Phase 2.3 integration scripts: a shallow embedding

    The repository ships three Python scripts
    (scripts/integrate-phase-2-3.py, scripts/complete-phase-2-3.py and
    scripts/final-phase-2-3.py).  Each of them reads one source file into a
    string, pushes that string through a fixed sequence of [str.replace] and
    [re.sub] calls, writes the string back and prints a line-count summary.

    The development has these layers:
    - Python strings and the [str] methods the scripts call;
    - the part of the [re] module the scripts exercise (pattern compiler,
      backtracking matcher, replacement templates, [re.sub]);
    - a small state-and-exception monad for the file system and the console;
    - rewrite rules, and the three scripts, one module each, with the rule
      list each of them amounts to;
    - the [__main__] blocks, which supply the path and turn an exception
      into exit status 1;
    - the properties of the engine and of the runs, the claims, and further
      properties of the code. *)

From Stdlib Require Import ZArith NArith QArith Lia String Ascii List Bool.
From stdpp Require Import base option list strings gmap.

Local Open Scope nat_scope.

(** ** Python strings *)

(** A Python [str] is a sequence of Unicode code points. *)
Abbreviation char := N (only parsing).
Abbreviation buffer := (list N) (only parsing).

(** Source literals are ASCII, so a literal is the list of its bytes. *)
Definition str (s : string) : buffer :=
  map N_of_ascii (list_ascii_of_string s).

(** The double-quote character, spliced into literals that contain it. *)
Definition dq : string := String (ascii_of_nat 34) EmptyString.

Definition LF : char := 10%N.
Definition CR : char := 13%N.

(** [s.startswith(pre)] *)
Fixpoint startswith (s pre : buffer) {struct pre} : bool :=
  match pre with
  | [] => true
  | p :: pre' =>
      match s with
      | [] => false
      | c :: s' => N.eqb c p && startswith s' pre'
      end
  end.

(** [s.find(old)]: index of the leftmost occurrence ([None] for Python's -1). *)
Fixpoint find (s old : buffer) : option nat :=
  if startswith s old then Some 0
  else match s with
       | [] => None
       | _ :: s' => S <$> find s' old
       end.

(** The loop of [s.replace(old, new)] for a non-empty [old]: cut at the
    leftmost occurrence, emit [new], go on behind the occurrence.  Every round
    consumes at least one character, so [length s] rounds always suffice
    (lemma [str_replace_unfold]). *)
Fixpoint replace_from (fuel : nat) (s old new : buffer) : buffer :=
  match fuel with
  | 0 => s
  | S fuel' =>
      match find s old with
      | None => s
      | Some i =>
          take i s ++ new ++ replace_from fuel' (drop (i + length old) s) old new
      end
  end.

(** [s.replace(old, new)].  With an empty [old] Python puts [new] in front of
    every character and at the end. *)
Definition str_replace (s old new : buffer) : buffer :=
  match old with
  | [] => new ++ flat_map (fun c => c :: new) s
  | _ :: _ => replace_from (length s) s old new
  end.

(** [s.count(old)] for a non-empty [old]: non-overlapping occurrences, left
    to right. *)
Fixpoint count_from (fuel : nat) (s old : buffer) : nat :=
  match fuel with
  | 0 => 0
  | S fuel' =>
      match find s old with
      | None => 0
      | Some i => S (count_from fuel' (drop (i + length old) s) old)
      end
  end.

Definition str_count (s old : buffer) : nat :=
  match old with
  | [] => S (length s)
  | _ :: _ => count_from (length s) s old
  end.

(** [s.split(sep)] for a one-character separator, the only way the scripts
    call it. *)
Fixpoint str_split (s : buffer) (sep : char) : list buffer :=
  match s with
  | [] => [[]]
  | c :: s' =>
      if N.eqb c sep then [] :: str_split s' sep
      else match str_split s' sep with
           | [] => [[c]]
           | line :: rest => (c :: line) :: rest
           end
  end.

(** Line boundaries of [str.splitlines]. *)
Definition is_linebreak (c : char) : bool :=
  existsb (N.eqb c)
    [10; 11; 12; 13; 28; 29; 30; 133; 8232; 8233]%N.

(** [s.splitlines()]: [cur] is the line being read; a CR LF pair is one
    boundary, and text after the last boundary is a line only when it is not
    empty. *)
Fixpoint splitlines_from (cur s : buffer) : list buffer :=
  match s with
  | [] => match cur with [] => [] | _ :: _ => [cur] end
  | c :: s' =>
      if is_linebreak c then
        cur :: match s' with
               | c' :: s'' =>
                   if N.eqb c CR && N.eqb c' LF then splitlines_from [] s''
                   else splitlines_from [] s'
               | [] => []
               end
      else splitlines_from (cur ++ [c]) s'
  end.

Definition splitlines (s : buffer) : list buffer := splitlines_from [] s.

(** [len(...)] as a Python integer. *)
Definition len {A} (l : list A) : Z := Z.of_nat (length l).

(** ** Exceptions *)

(** The exceptions a run can raise.  [NotModelled] is not a Python exception:
    it marks pattern or template syntax outside the fragment of [re] that is
    modelled here (none of the scripts' patterns falls outside it). *)
Inductive exn :=
| FileNotFoundError (path : string)
| PermissionError (path : string)
| ReError (msg : string)
| ZeroDivisionError
| NotModelled (what : string).

Inductive result (A : Type) :=
| Ok (a : A)
| Raise (e : exn).
Arguments Ok {A} a.
Arguments Raise {A} e.

Definition is_ok {A} (r : result A) : bool :=
  match r with Ok _ => true | Raise _ => false end.

Definition rbind {A B} (r : result A) (f : A -> result B) : result B :=
  match r with
  | Ok a => f a
  | Raise e => Raise e
  end.

Notation "'try' x <- r ; k" := (rbind r (fun x => k))
  (at level 10, x pattern, r at level 100, k at level 200).

(** ** Regular expressions: syntax *)

(** Members of a bracketed set. *)
Inductive citem :=
| CChar (c : char)
| CSpace        (* \s *)
| CNotSpace.    (* \S *)

(** Patterns.  A repeat has no upper bound: the scripts use [*], [+], [*?]
    and [+?] only. *)
Inductive regex :=
| RChar (c : char)
| RIn (negate : bool) (items : list citem)
| REmpty
| RCat (r1 r2 : regex)
| RRepeat (greedy : bool) (mn : nat) (r : regex)
| RGroup (n : nat) (r : regex).

(** [re.MULTILINE] and [re.DOTALL] change the meaning of [^], [$] and [.]
    only.  No pattern of the scripts contains one of these unescaped, so the
    flags are carried along and never consulted. *)
Inductive flag := MULTILINE | DOTALL.

(** Unicode whitespace, as matched by [\s] in a [str] pattern. *)
Definition is_space (c : char) : bool :=
  existsb (N.eqb c)
    [9; 10; 11; 12; 13; 28; 29; 30; 31; 32; 133; 160; 5760;
     8232; 8233; 8239; 8287; 12288]%N
  || (N.leb 8192 c && N.leb c 8202).

Definition in_item (c : char) (i : citem) : bool :=
  match i with
  | CChar x => N.eqb c x
  | CSpace => is_space c
  | CNotSpace => negb (is_space c)
  end.

Definition in_set (negate : bool) (items : list citem) (c : char) : bool :=
  xorb negate (existsb (in_item c) items).

(** A literal text as a pattern: the shape the compiler gives to a run of
    literal characters. *)
Definition lits (l : buffer) : regex :=
  foldr (fun c r => RCat (RChar c) r) REmpty l.

(** ** Regular expressions: the pattern compiler *)

Definition ch (s : string) : char :=
  match s with
  | String a _ => N_of_ascii a
  | EmptyString => 0%N
  end.

Definition is_alnum (c : char) : bool :=
  (N.leb 48 c && N.leb c 57) || (N.leb 65 c && N.leb c 90)
  || (N.leb 97 c && N.leb c 122).

Definition is_digit (c : char) : bool := N.leb 48 c && N.leb c 57.

(** The members of a set, up to the closing bracket. *)
Fixpoint parse_set (s : buffer) : result (list citem * buffer) :=
  match s with
  | [] => Raise (ReError "unterminated character set")
  | c :: s' =>
      if N.eqb c (ch "]") then Ok ([], s')
      else if N.eqb c (ch "-") then Raise (NotModelled "character range")
      else if N.eqb c (ch "\") then
        match s' with
        | [] => Raise (ReError "bad escape (end of pattern)")
        | e :: s'' =>
            if N.eqb e (ch "s") then
              try (items, rest) <- parse_set s'' ; Ok (CSpace :: items, rest)
            else if N.eqb e (ch "S") then
              try (items, rest) <- parse_set s'' ; Ok (CNotSpace :: items, rest)
            else if is_alnum e then Raise (NotModelled "escape in a set")
            else
              try (items, rest) <- parse_set s'' ; Ok (CChar e :: items, rest)
        end
      else
        try (items, rest) <- parse_set s' ; Ok (CChar c :: items, rest)
  end.

(** A quantifier behind an atom. *)
Definition is_quant (c : char) : bool :=
  N.eqb c (ch "*") || N.eqb c (ch "+") || N.eqb c (ch "?") || N.eqb c (ch "{").

Definition no_second_quant (rest : buffer) : bool :=
  match rest with
  | c :: _ => negb (is_quant c)
  | [] => true
  end.

Definition parse_quant (a : regex) (s : buffer) : result (regex * buffer) :=
  match s with
  | c :: s' =>
      if N.eqb c (ch "*") || N.eqb c (ch "+") then
        let mn := if N.eqb c (ch "*") then 0 else 1 in
        match s' with
        | q :: s'' =>
            if N.eqb q (ch "?") then
              if no_second_quant s'' then Ok (RRepeat false mn a, s'')
              else Raise (ReError "multiple repeat")
            else if is_quant q then Raise (NotModelled "possessive or multiple repeat")
            else Ok (RRepeat true mn a, s')
        | [] => Ok (RRepeat true mn a, s')
        end
      else if N.eqb c (ch "?") || N.eqb c (ch "{") then
        Raise (NotModelled "optional or counted repeat")
      else Ok (a, s)
  | [] => Ok (a, s)
  end.

(** A sequence of quantified atoms, up to the end of the pattern or to the
    parenthesis that closes the enclosing group.  [g] is the number of
    capturing groups opened so far; [fuel] bounds the nesting and the length
    ([re_compile] passes more than the pattern can use). *)
Fixpoint parse_seq (fuel : nat) (s : buffer) (g : nat)
  : result (regex * buffer * nat) :=
  match fuel with
  | 0 => Raise (NotModelled "pattern too long")
  | S fuel' =>
      match s with
      | [] => Ok (REmpty, [], g)
      | c :: s' =>
          if N.eqb c (ch ")") then Ok (REmpty, s, g)
          else
            try (a, rest, g1) <-
              (if N.eqb c (ch "\") then
                 match s' with
                 | [] => Raise (ReError "bad escape (end of pattern)")
                 | e :: s'' =>
                     if N.eqb e (ch "s") then Ok (RIn false [CSpace], s'', g)
                     else if N.eqb e (ch "S") then Ok (RIn false [CNotSpace], s'', g)
                     else if is_alnum e then Raise (NotModelled "escape")
                     else Ok (RChar e, s'', g)
                 end
               else if N.eqb c (ch "[") then
                 match s' with
                 | n :: s'' =>
                     if N.eqb n (ch "^") then
                       try (items, rest) <- parse_set s'' ;
                       Ok (RIn true items, rest, g)
                     else
                       try (items, rest) <- parse_set s' ;
                       Ok (RIn false items, rest, g)
                 | [] => Raise (ReError "unterminated character set")
                 end
               else if N.eqb c (ch "(") then
                 match s' with
                 | q :: c2 :: s'' =>
                     if N.eqb q (ch "?") then
                       if N.eqb c2 (ch ":") then
                         try (r, rest, g1) <- parse_seq fuel' s'' g ;
                         match rest with
                         | _ :: rest' => Ok (r, rest', g1)
                         | [] => Raise (ReError "missing ), unterminated subpattern")
                         end
                       else Raise (NotModelled "group extension")
                     else
                       try (r, rest, g1) <- parse_seq fuel' s' (S g) ;
                       match rest with
                       | _ :: rest' => Ok (RGroup (S g) r, rest', g1)
                       | [] => Raise (ReError "missing ), unterminated subpattern")
                       end
                 | _ =>
                     try (r, rest, g1) <- parse_seq fuel' s' (S g) ;
                     match rest with
                     | _ :: rest' => Ok (RGroup (S g) r, rest', g1)
                     | [] => Raise (ReError "missing ), unterminated subpattern")
                     end
                 end
               else if N.eqb c (ch "*") || N.eqb c (ch "+") || N.eqb c (ch "?") then
                 Raise (ReError "nothing to repeat")
               else if N.eqb c (ch ".") || N.eqb c (ch "^") || N.eqb c (ch "$")
                       || N.eqb c (ch "|") || N.eqb c (ch "{") then
                 Raise (NotModelled "metacharacter")
               else Ok (RChar c, s', g)) ;
            try (qa, rest') <- parse_quant a rest ;
            try (tail, rest'', g2) <- parse_seq fuel' rest' g1 ;
            Ok (RCat qa tail, rest'', g2)
      end
  end.

(** [re.compile(pattern)]: the pattern and its number of capturing groups. *)
Definition re_compile (pattern : buffer) : result (regex * nat) :=
  try (r, rest, g) <- parse_seq (S (length pattern)) pattern 0 ;
  match rest with
  | [] => Ok (r, g)
  | _ :: _ => Raise (ReError "unbalanced parenthesis")
  end.

(** ** Replacement templates *)

Inductive titem :=
| TLit (c : char)
| TRef (n : nat).    (* \n for a group number n *)

Definition digit_val (c : char) : nat := N.to_nat (c - 48).

(** The template parser of [re.sub]: a backslash introduces a group
    reference or a character escape; [groups] is the number of groups of the
    pattern. *)
Fixpoint parse_template (s : buffer) (groups : nat) : result (list titem) :=
  match s with
  | [] => Ok []
  | c :: s' =>
      if N.eqb c (ch "\") then
        match s' with
        | [] => Raise (ReError "bad escape (end of pattern)")
        | e :: s'' =>
            if is_digit e then
              if N.eqb e (ch "0") then Raise (NotModelled "octal escape")
              else if match s'' with d :: _ => is_digit d | [] => false end
              then Raise (NotModelled "two-digit reference")
              else if digit_val e <=? groups then
                try t <- parse_template s'' groups ; Ok (TRef (digit_val e) :: t)
              else Raise (ReError "invalid group reference")
            else if N.eqb e (ch "n") then
              try t <- parse_template s'' groups ; Ok (TLit LF :: t)
            else if N.eqb e (ch "\") then
              try t <- parse_template s'' groups ; Ok (TLit e :: t)
            else if is_alnum e then Raise (NotModelled "template escape")
            else
              try t <- parse_template s'' groups ; Ok (TLit c :: TLit e :: t)
        end
      else try t <- parse_template s' groups ; Ok (TLit c :: t)
  end.

(** The text a template stands for, given the groups of one match.  A group
    that took no part in the match contributes the empty string. *)
Definition expand (t : list titem) (groups : gmap nat (list N)) : buffer :=
  flat_map (fun i => match i with
                     | TLit c => [c]
                     | TRef n => default [] (groups !! n)
                     end) t.

(** ** Regular expressions: the backtracking matcher *)

(** The matcher is written in continuation-passing style, as a backtracking
    engine is: [k] is what remains to be matched behind the current
    subpattern, and [None] sends the caller to its next alternative.  A
    state is the rest of the subject and the text of the groups closed so
    far. *)
Abbreviation groups := (gmap nat (list N)) (only parsing).
Abbreviation mstate := (prod (list N) (gmap nat (list N))) (only parsing).
Abbreviation cont := (list N -> gmap nat (list N) -> option (prod (list N) (gmap nat (list N))))
  (only parsing).

(** One repeat.  [again] matches the body once more and comes back here;
    [leave] goes on behind the repeat, allowed once [mn] rounds are done.  A
    greedy repeat tries [again] first, a lazy one [leave].  A round that
    consumed nothing ends the repeat (the engine's guard against looping on
    empty matches).  Every other round consumes a character, so the [fuel]
    that [rmatch] passes, one more than the length of the subject, is never
    used up (lemma [rmatch_repeat_fuel]). *)
Fixpoint repeat_loop (body : buffer -> groups -> cont -> option mstate)
    (greedy : bool) (mn : nat) (k : cont)
    (fuel count : nat) (s : buffer) (gs : groups) : option mstate :=
  match fuel with
  | 0 => None
  | S fuel' =>
      let again (_ : unit) :=
        body s gs (fun s1 gs1 =>
          if length s1 <? length s
          then repeat_loop body greedy mn k fuel' (S count) s1 gs1
          else k s1 gs1) in
      let leave (_ : unit) := if mn <=? count then k s gs else None in
      if greedy then
        match again tt with
        | Some m => Some m
        | None => leave tt
        end
      else
        match leave tt with
        | Some m => Some m
        | None => again tt
        end
  end.

Fixpoint rmatch (r : regex) (s : buffer) (gs : groups) (k : cont)
  : option mstate :=
  match r with
  | RChar c =>
      match s with
      | x :: s' => if N.eqb x c then k s' gs else None
      | [] => None
      end
  | RIn negate items =>
      match s with
      | x :: s' => if in_set negate items x then k s' gs else None
      | [] => None
      end
  | REmpty => k s gs
  | RCat r1 r2 => rmatch r1 s gs (fun s1 gs1 => rmatch r2 s1 gs1 k)
  | RRepeat greedy mn r1 =>
      repeat_loop (rmatch r1) greedy mn k (S (length s)) 0 s gs
  | RGroup n r1 =>
      rmatch r1 s gs (fun s1 gs1 =>
        k s1 (<[n := take (length s - length s1) s]> gs1))
  end.

(** One match attempt at the start of [s]: the rest behind the match and the
    groups.  With [must_advance] an empty match counts as a failure, so the
    engine backtracks into a longer one. *)
Definition match_at (r : regex) (must_advance : bool) (s : buffer)
  : option mstate :=
  rmatch r s ∅ (fun s1 gs =>
    if must_advance && (length s1 =? length s) then None else Some (s1, gs)).

(** The leftmost match in [s]: its start offset, the rest behind it and the
    groups.  [must_advance] constrains the attempt at offset 0 only. *)
Fixpoint search (r : regex) (must_advance : bool) (s : buffer)
  : option (nat * buffer * groups) :=
  match match_at r must_advance s with
  | Some (rest, gs) => Some (0, rest, gs)
  | None =>
      match s with
      | [] => None
      | _ :: s' =>
          match search r false s' with
          | Some (i, rest, gs) => Some (S i, rest, gs)
          | None => None
          end
      end
  end.

(** The loop of [re.sub]: copy the text in front of the leftmost match, emit
    the expanded template, continue behind the match.  Behind an empty match
    the next match must advance.  Two rounds always consume a character, so
    the fuel [2 * length s + 2] that [re_sub] passes is never used up (lemma
    [sub_from_fuel]). *)
Fixpoint sub_from (fuel : nat) (r : regex) (t : list titem)
    (must_advance : bool) (s : buffer) : buffer :=
  match fuel with
  | 0 => s
  | S fuel' =>
      match search r must_advance s with
      | None => s
      | Some (i, rest, gs) =>
          take i s ++ expand t gs ++
          sub_from fuel' r t (length rest =? length s - i) rest
      end
  end.

(** [re.sub(pattern, repl, string, flags=...)].  Pattern and template are
    compiled before the subject is looked at, so their errors are raised
    whatever the subject is. *)
Definition re_sub (pattern repl string : buffer) (flags : list flag)
  : result buffer :=
  try (r, g) <- re_compile pattern ;
  try t <- parse_template repl g ;
  Ok (sub_from (2 * length string + 2) r t false string).

(** [len(re.findall(pattern, string))]: how often the pattern matches. *)
Fixpoint count_matches (fuel : nat) (r : regex) (must_advance : bool)
    (s : buffer) : nat :=
  match fuel with
  | 0 => 0
  | S fuel' =>
      match search r must_advance s with
      | None => 0
      | Some (i, rest, gs) =>
          S (count_matches fuel' r (length rest =? length s - i) rest)
      end
  end.

(** ** The file system and the console *)

(** What one [print] call writes: the pieces of an f-string.  The numbers
    stay unformatted: [Int n] is [{n}], [Signed n] is [{n:+d}] and [Fixed1 q]
    is [{q:.1f}]. *)
Inductive frag :=
| Text (s : string)
| Int (n : Z)
| Signed (n : Z)
| Fixed1 (q : Q).

(** The world a script runs in.  Files hold text; [readonly] are the paths
    that cannot be opened for writing; [console] collects the [print] calls,
    oldest first; [writes] logs every completed [write_file]. *)
Record world := World {
  disk : gmap string (list N);
  readonly : gset string;
  console : list (list frag);
  writes : list (string * list N)
}.

(** A computation that may change the world and may raise.  What was done
    before an exception stays done. *)
Definition io (A : Type) : Type := world -> result A * world.

Definition ret {A} (a : A) : io A := fun w => (Ok a, w).

Definition bind {A B} (m : io A) (f : A -> io B) : io B :=
  fun w =>
    match m w with
    | (Ok a, w') => f a w'
    | (Raise e, w') => (Raise e, w')
    end.

Definition lift {A} (r : result A) : io A := fun w => (r, w).

Notation "'get' x <- m ; k" := (bind m (fun x => k))
  (at level 10, x name, m at level 100, k at level 200).
Notation "'do' m ; k" := (bind m (fun _ => k))
  (at level 10, m at level 100, k at level 200).

Definition print (l : list frag) : io unit :=
  fun w =>
    (Ok tt, World (disk w) (readonly w) (console w ++ [l]) (writes w)).

(** Reading in text mode turns CR LF and a lone CR into LF. *)
Fixpoint universal_newlines (s : buffer) : buffer :=
  match s with
  | [] => []
  | c :: s' =>
      if N.eqb c CR then
        LF :: match s' with
              | c' :: s'' =>
                  if N.eqb c' LF then universal_newlines s''
                  else universal_newlines s'
              | [] => []
              end
      else c :: universal_newlines s'
  end.

(** [read_file(filepath)] *)
Definition read_file (filepath : string) : io buffer :=
  fun w =>
    match disk w !! filepath with
    | Some text => (Ok (universal_newlines text), w)
    | None => (Raise (FileNotFoundError filepath), w)
    end.

(** [write_file(filepath, content)].  Opening for writing either fails and
    leaves the file alone, or replaces its content (the line separator of the
    platform is taken to be LF, so the text is stored as it is). *)
Definition write_file (filepath : string) (content : buffer) : io unit :=
  fun w =>
    if decide (filepath ∈ readonly w) then (Raise (PermissionError filepath), w)
    else (Ok tt, World (<[filepath := content]> (disk w)) (readonly w)
                       (console w) (writes w ++ [(filepath, content)])).

(** Python's true division [a / b] of integers, as the exact quotient; the
    interpreter rounds it to a binary64 float. *)
Definition truediv (a b : Z) : result Q :=
  if Z.eqb b 0 then Raise ZeroDivisionError
  else Ok (Qdiv (inject_Z a) (inject_Z b)).

(** ** Vocabulary of the statements *)

(** The texts a pattern stands for, independent of any matching strategy. *)
Fixpoint in_lang (r : regex) (w : buffer) : Prop :=
  match r with
  | RChar c => w = [c]
  | RIn negate items => exists x, w = [x] /\ in_set negate items x = true
  | REmpty => w = []
  | RCat r1 r2 =>
      exists w1 w2, w = w1 ++ w2 /\ in_lang r1 w1 /\ in_lang r2 w2
  | RRepeat _ mn r1 =>
      exists ws, w = concat ws /\ mn <= length ws /\ Forall (in_lang r1) ws
  | RGroup _ r1 => in_lang r1 w
  end.

(** [g] is a gap in front of [old]: the leftmost occurrence of [old] in
    [g ++ old] is the one at the end. *)
Definition gap_before (old g : list N) : Prop :=
  find (g ++ old) old = Some (length g).

(** No occurrence of [old] can start inside [ins], whatever text follows
    [ins]: no non-empty end of [ins] starts with [old] or starts [old]. *)
Fixpoint cross_free (old ins : buffer) : bool :=
  match ins with
  | [] => true
  | _ :: ins' =>
      negb (startswith ins old) && negb (startswith old ins)
      && cross_free old ins'
  end.

(** How far the loop of [re.sub] is from its end. *)
Definition sub_measure (s : buffer) (must_advance : bool) : nat :=
  2 * length s + (if must_advance then 0 else 1).

(** A rewritten subject is laid out span by span: the text in front of a
    match, the match, and what replaced it. *)
Record segment := Segment {
  gap : list N;
  matched : list N;
  replacement : list N
}.

Definition before (segs : list segment) (tail : buffer) : buffer :=
  flat_map (fun x => gap x ++ matched x) segs ++ tail.

Definition after (segs : list segment) (tail : buffer) : buffer :=
  flat_map (fun x => gap x ++ replacement x) segs ++ tail.

(** [r] matches the text [L] and nothing else, and leaves the groups [G]. *)
Definition literal_regex (r : regex) (L : buffer)
    (G : gmap nat (list N) -> gmap nat (list N)) : Prop :=
  forall s gs k,
    rmatch r s gs k =
    if startswith s L then k (drop (length L) s) (G gs) else None.

(** ** Rewrite rules *)

(** One step of a script: [content = content.replace(old, new)] or
    [content = re.sub(pattern, repl, content, flags=...)]. *)
Inductive rule :=
| Replace (old new : list N)
| Sub (pattern repl : list N) (flags : list flag).

Definition applyRule (b : buffer) (r : rule) : result buffer :=
  match r with
  | Replace old new => Ok (str_replace b old new)
  | Sub pattern repl flags => re_sub pattern repl b flags
  end.

(** [rules.reduce(applyRule, initialBuffer)]; an exception ends the fold. *)
Definition reduce (rules : list rule) (initial : buffer) : result buffer :=
  fold_left (fun acc r => try b <- acc ; applyRule b r) rules (Ok initial).

(** The buffer a rule list leaves behind (the initial one, should a rule
    raise). *)
Definition final_buffer (rules : list rule) (initial : buffer) : buffer :=
  match reduce rules initial with
  | Ok b => b
  | Raise _ => initial
  end.

(** A rule is well formed when its pattern and its template compile. *)
Definition rule_wf (r : rule) : bool :=
  match r with
  | Replace _ _ => true
  | Sub pattern repl _ =>
      match re_compile pattern with
      | Ok (_, g) => is_ok (parse_template repl g)
      | Raise _ => false
      end
  end.

(** How often the locator of a rule matches the buffer:
    [b.count(old)], or [len(re.findall(pattern, b))]. *)
Definition match_count (r : rule) (b : buffer) : nat :=
  match r with
  | Replace old _ => str_count b old
  | Sub pattern _ _ =>
      match re_compile pattern with
      | Ok (rx, _) => count_matches (2 * length b + 2) rx false b
      | Raise _ => 0
      end
  end.

(** The span a rule replaced is a match of its locator, and what replaced
    it is the replacement of the rule. *)
Definition span_of (r : rule) (x : segment) : Prop :=
  match r with
  | Replace old new => matched x = old /\ replacement x = new
  | Sub pattern repl _ =>
      exists rx g t gs,
        re_compile pattern = Ok (rx, g) /\ parse_template repl g = Ok t /\
        in_lang rx (matched x) /\ replacement x = expand t gs
  end.

(** ** scripts/integrate-phase-2-3.py *)

Module Integrate.

Definition hook_imports : buffer := str (
"import { useDisplayConfirmation } from " ++ dq ++ "@/hooks/useDisplayConfirmation" ++ dq ++ ";
import { useStorageSync } from " ++ dq ++ "@/hooks/useStorageSync" ++ dq ++ ";
import { usePlayerInitialization } from " ++ dq ++ "@/hooks/usePlayerInitialization" ++ dq ++ ";").

Definition api_key_rotation_import : buffer := str (
"import { useApiKeyRotation } from " ++ dq ++ "@/hooks/useApiKeyRotation" ++ dq ++ ";").

Definition component_imports : buffer := str (
"import { NowPlayingTicker } from " ++ dq ++ "@/components/NowPlayingTicker" ++ dq ++ ";
import { PlayerClosedNotification } from " ++ dq ++ "@/components/PlayerClosedNotification" ++ dq ++ ";
import { MiniPlayer } from " ++ dq ++ "@/components/MiniPlayer" ++ dq ++ ";
import { SearchButton } from " ++ dq ++ "@/components/SearchButton" ++ dq ++ ";
import { UpcomingQueue } from " ++ dq ++ "@/components/UpcomingQueue" ++ dq ++ ";
import { FooterControls } from " ++ dq ++ "@/components/FooterControls" ++ dq ++ ";").

Definition credits_display_import : buffer := str (
"import { CreditsDisplay } from " ++ dq ++ "@/components/CreditsDisplay" ++ dq ++ ";").

Definition old_display_logic : buffer := str
"  // Display confirmation callbacks - must be defined before usePlayerManager
  const \[pendingDisplayConfirmation, setPendingDisplayConfirmation\] = useState<\{
    displayInfo: DisplayInfo;
    onConfirm: \(useFullscreen: boolean, rememberChoice: boolean\) => void;
    onCancel: \(\) => void;
  \} \| null>\(null\);

  const handleDisplayConfirmationNeeded = useCallback\(
    \(
      displayInfo: DisplayInfo,
      onConfirm: \(useFullscreen: boolean, rememberChoice: boolean\) => void,
      onCancel: \(\) => void,
    \) => \{
      setPendingDisplayConfirmation\(\{ displayInfo, onConfirm, onCancel \}\);
    \},
    \[\],
  \);

  const handleDisplayConfirmationResponse = useCallback\(
    \(useFullscreen: boolean, rememberChoice: boolean\) => \{
      if \(pendingDisplayConfirmation\) \{
        pendingDisplayConfirmation\.onConfirm\(useFullscreen, rememberChoice\);
        setPendingDisplayConfirmation\(null\);
      \}
    \},
    \[pendingDisplayConfirmation\],
  \);

  const handleDisplayConfirmationCancel = useCallback\(\(\) => \{
    if \(pendingDisplayConfirmation\) \{
      pendingDisplayConfirmation\.onCancel\(\);
      setPendingDisplayConfirmation\(null\);
    \}
  \}, \[pendingDisplayConfirmation\]\);".

Definition new_display_logic : buffer := str
"  // Display confirmation hook
  const displayConfirmation = useDisplayConfirmation();".

Definition hooks_addition : buffer := str
"
  // Storage synchronization hook (player window communication)
  useStorageSync({
    state,
    setState,
    addLog,
    handleVideoEnded,
    toast,
  });

  // Player initialization hook (auto-start first song)
  usePlayerInitialization({
    state,
    initializePlayer,
    playNextSong,
  });".

Definition integrate_phase_2_3 (index_path : string) : io unit :=
  do print [Text "Reading Index.tsx..."] ;
  get content <- read_file index_path ;
  let original_lines := len (str_split content LF) in

  do print [Text "Step 1: Adding hook imports..."] ;
  let content := str_replace content
    api_key_rotation_import
    (api_key_rotation_import ++ [LF] ++ hook_imports) in

  do print [Text "Step 2: Adding component imports..."] ;
  let content := str_replace content
    credits_display_import
    (credits_display_import ++ [LF] ++ component_imports) in

  do print [Text "Step 3: Replacing display confirmation logic..."] ;
  get content <- lift (re_sub old_display_logic new_display_logic content
                          [MULTILINE; DOTALL]) ;

  do print [Text "Step 4: Updating usePlayerManager call..."] ;
  let content := str_replace content
    (str "handleDisplayConfirmationNeeded,")
    (str "displayConfirmation.handleDisplayConfirmationNeeded,") in

  do print [Text "Step 5: Adding storage sync and player initialization hooks..."] ;
  let content := str_replace content
    (str "  } = useApiKeyRotation(state, setState, toast);")
    (str "  } = useApiKeyRotation(state, setState, toast);" ++ [LF] ++ hooks_addition) in

  do print [Text "Writing changes back to Index.tsx..."] ;
  do write_file index_path content ;

  let new_lines := len (str_split content LF) in
  do print [Text "
✅ Integration complete!"] ;
  do print [Text "Original lines: "; Int original_lines] ;
  do print [Text "New lines: "; Int new_lines] ;
  do print [Text "Change: "; Signed (new_lines - original_lines); Text " lines"] ;

  do print [Text "
⚠️  Manual steps still required:"] ;
  do print [Text "1. Remove old player initialization logic (~74 lines)"] ;
  do print [Text "2. Remove old storage sync logic (~282 lines)"] ;
  do print [Text "3. Update DisplayConfirmationDialog props"] ;
  do print [Text "4. Replace UI component JSX"] ;
  print [Text "
See PHASE2.3_INTEGRATION_GUIDE.md for details"].

(** The steps of [integrate_phase_2_3] as a rule list, in textual order. *)
Definition rules : list rule := [
  Replace api_key_rotation_import
          (api_key_rotation_import ++ [LF] ++ hook_imports);
  Replace credits_display_import
          (credits_display_import ++ [LF] ++ component_imports);
  Sub old_display_logic new_display_logic [MULTILINE; DOTALL];
  Replace (str "handleDisplayConfirmationNeeded,")
          (str "displayConfirmation.handleDisplayConfirmationNeeded,");
  Replace (str "  } = useApiKeyRotation(state, setState, toast);")
          (str "  } = useApiKeyRotation(state, setState, toast);" ++ [LF] ++ hooks_addition)
].

(** What the function prints up to the write, and its summary. *)
Definition progress : list (list frag) := [
  [Text "Reading Index.tsx..."];
  [Text "Step 1: Adding hook imports..."];
  [Text "Step 2: Adding component imports..."];
  [Text "Step 3: Replacing display confirmation logic..."];
  [Text "Step 4: Updating usePlayerManager call..."];
  [Text "Step 5: Adding storage sync and player initialization hooks..."];
  [Text "Writing changes back to Index.tsx..."]
].

Definition report (original_lines new_lines : Z) : list (list frag) := [
  [Text "
✅ Integration complete!"];
  [Text "Original lines: "; Int original_lines];
  [Text "New lines: "; Int new_lines];
  [Text "Change: "; Signed (new_lines - original_lines); Text " lines"];
  [Text "
⚠️  Manual steps still required:"];
  [Text "1. Remove old player initialization logic (~74 lines)"];
  [Text "2. Remove old storage sync logic (~282 lines)"];
  [Text "3. Update DisplayConfirmationDialog props"];
  [Text "4. Replace UI component JSX"];
  [Text "
See PHASE2.3_INTEGRATION_GUIDE.md for details"]
].

End Integrate.

(** ** scripts/complete-phase-2-3.py *)

(** ["=" * n] *)
Fixpoint times (s : string) (n : nat) : string :=
  match n with
  | 0 => EmptyString
  | S n' => (s ++ times s n')%string
  end.

Module Complete.

Definition hook_imports : buffer := str (
"import { useDisplayConfirmation } from " ++ dq ++ "@/hooks/useDisplayConfirmation" ++ dq ++ ";
import { useStorageSync } from " ++ dq ++ "@/hooks/useStorageSync" ++ dq ++ ";
import { usePlayerInitialization } from " ++ dq ++ "@/hooks/usePlayerInitialization" ++ dq ++ ";").

Definition api_key_rotation_import : buffer := str (
"import { useApiKeyRotation } from " ++ dq ++ "@/hooks/useApiKeyRotation" ++ dq ++ ";").

Definition component_imports : buffer := str (
"import { NowPlayingTicker } from " ++ dq ++ "@/components/NowPlayingTicker" ++ dq ++ ";
import { PlayerClosedNotification } from " ++ dq ++ "@/components/PlayerClosedNotification" ++ dq ++ ";
import { MiniPlayer } from " ++ dq ++ "@/components/MiniPlayer" ++ dq ++ ";
import { SearchButton } from " ++ dq ++ "@/components/SearchButton" ++ dq ++ ";
import { UpcomingQueue } from " ++ dq ++ "@/components/UpcomingQueue" ++ dq ++ ";
import { FooterControls } from " ++ dq ++ "@/components/FooterControls" ++ dq ++ ";").

Definition credits_display_import : buffer := str (
"import { CreditsDisplay } from " ++ dq ++ "@/components/CreditsDisplay" ++ dq ++ ";").

Definition old_display_pattern : buffer := str
"  // Display confirmation callbacks - must be defined before usePlayerManager\s+const \[pendingDisplayConfirmation, setPendingDisplayConfirmation\] = useState[^;]+;\s+const handleDisplayConfirmationNeeded = useCallback\([^)]+\)[^;]+;(?:\s+)*const handleDisplayConfirmationResponse = useCallback\([^)]+\)[^;]+;(?:\s+)*const handleDisplayConfirmationCancel = useCallback\([^)]+\)[^;]+;".

Definition new_display : buffer := str
"  // Display confirmation hook
  const displayConfirmation = useDisplayConfirmation();".

Definition hooks_addition : buffer := str
"
  // Storage synchronization hook (player window communication)
  useStorageSync({
    state,
    setState,
    addLog,
    handleVideoEnded,
    toast,
  });

  // Player initialization hook (auto-start first song)
  usePlayerInitialization({
    state,
    initializePlayer,
    playNextSong,
  });".

Definition old_autoplay_pattern : buffer := str
"  // Enhanced autoplay logic - start songs when playlist is ready\s+const hasStartedFirstSongRef = useRef\(false\);[\s\S]+?\], \[[\s\S]+?playNextSong,\s+\]\);".

Definition old_storage_pattern : buffer := str
"  // Enhanced video end handling[\s\S]+?  // Emergency recovery event listener[\s\S]+?\], \[setState, toast\]\);".

Definition old_dialog : buffer := str
"\{pendingDisplayConfirmation && \(\s+<DisplayConfirmationDialog\s+isOpen=\{true\}\s+displayInfo=\{pendingDisplayConfirmation\.displayInfo\}\s+onConfirm=\{handleDisplayConfirmationResponse\}\s+onCancel=\{handleDisplayConfirmationCancel\}\s+/>\s+\)\}".

Definition new_dialog : buffer := str
"<DisplayConfirmationDialog
        isOpen={!!displayConfirmation.pendingDisplayConfirmation}
        displayInfo={displayConfirmation.pendingDisplayConfirmation?.displayInfo || null}
        onConfirm={displayConfirmation.handleDisplayConfirmationResponse}
        onCancel={displayConfirmation.handleDisplayConfirmationCancel}
      />".

Definition integrate_complete (index_path : string) : io unit :=
  do print [Text (times "=" 60)] ;
  do print [Text "PHASE 2.3 COMPLETE INTEGRATION"] ;
  do print [Text (times "=" 60)] ;
  do print [Text "
Reading Index.tsx..."] ;
  get content <- read_file index_path ;
  let original_lines := len (str_split content LF) in
  do print [Text "Original: "; Int original_lines; Text " lines"] ;

  do print [Text "
[1/8] Adding hook imports..."] ;
  let content := str_replace content
    api_key_rotation_import
    (api_key_rotation_import ++ [LF] ++ hook_imports) in

  do print [Text "[2/8] Adding component imports..."] ;
  let content := str_replace content
    credits_display_import
    (credits_display_import ++ [LF] ++ component_imports) in

  do print [Text "[3/8] Replacing display confirmation logic..."] ;
  get content <- lift (re_sub old_display_pattern new_display content [DOTALL]) ;

  let content := str_replace content
    (str "handleDisplayConfirmationNeeded,")
    (str "displayConfirmation.handleDisplayConfirmationNeeded,") in

  do print [Text "[4/8] Adding storage sync and player initialization hooks..."] ;
  let content := str_replace content
    (str "  } = useApiKeyRotation(state, setState, toast);")
    (str "  } = useApiKeyRotation(state, setState, toast);" ++ [LF] ++ hooks_addition) in

  do print [Text "[5/8] Removing old player initialization logic..."] ;
  get content <- lift (re_sub old_autoplay_pattern [] content []) ;

  do print [Text "[6/8] Removing old storage sync logic..."] ;
  get content <- lift (re_sub old_storage_pattern [] content []) ;

  do print [Text "[7/8] Updating DisplayConfirmationDialog props..."] ;
  get content <- lift (re_sub old_dialog new_dialog content [DOTALL]) ;

  do print [Text "[8/8] Writing changes..."] ;
  do write_file index_path content ;

  let new_lines := len (str_split content LF) in
  let reduction := (original_lines - new_lines)%Z in

  do print [Text ("
" ++ times "=" 60)] ;
  do print [Text "✅ INTEGRATION COMPLETE!"] ;
  do print [Text (times "=" 60)] ;
  do print [Text "Original lines:  "; Int original_lines] ;
  do print [Text "New lines:       "; Int new_lines] ;
  get ratio <- lift (truediv reduction original_lines) ;
  do print [Text "Reduction:       "; Int reduction; Text " lines (";
            Fixed1 (Qmult ratio (inject_Z 100)); Text "%)"] ;
  do print [Text "
✅ All hooks integrated"] ;
  do print [Text "✅ Old logic removed"] ;
  do print [Text "✅ Display dialog updated"] ;
  do print [Text "
⚠️  Manual steps still required:"] ;
  do print [Text "   - Replace UI component JSX (6 components)"] ;
  do print [Text "   - Remove unused imports"] ;
  print [Text "   - Final testing"].

(** The steps of [integrate_complete] as a rule list, in textual order. *)
Definition rules : list rule := [
  Replace api_key_rotation_import
          (api_key_rotation_import ++ [LF] ++ hook_imports);
  Replace credits_display_import
          (credits_display_import ++ [LF] ++ component_imports);
  Sub old_display_pattern new_display [DOTALL];
  Replace (str "handleDisplayConfirmationNeeded,")
          (str "displayConfirmation.handleDisplayConfirmationNeeded,");
  Replace (str "  } = useApiKeyRotation(state, setState, toast);")
          (str "  } = useApiKeyRotation(state, setState, toast);" ++ [LF] ++ hooks_addition);
  Sub old_autoplay_pattern [] [];
  Sub old_storage_pattern [] [];
  Sub old_dialog new_dialog [DOTALL]
].

(** What the function prints up to the write, and its summary. *)
Definition progress (original_lines : Z) : list (list frag) := [
  [Text (times "=" 60)];
  [Text "PHASE 2.3 COMPLETE INTEGRATION"];
  [Text (times "=" 60)];
  [Text "
Reading Index.tsx..."];
  [Text "Original: "; Int original_lines; Text " lines"];
  [Text "
[1/8] Adding hook imports..."];
  [Text "[2/8] Adding component imports..."];
  [Text "[3/8] Replacing display confirmation logic..."];
  [Text "[4/8] Adding storage sync and player initialization hooks..."];
  [Text "[5/8] Removing old player initialization logic..."];
  [Text "[6/8] Removing old storage sync logic..."];
  [Text "[7/8] Updating DisplayConfirmationDialog props..."];
  [Text "[8/8] Writing changes..."]
].

Definition report (original_lines new_lines : Z) : list (list frag) := [
  [Text ("
" ++ times "=" 60)];
  [Text "✅ INTEGRATION COMPLETE!"];
  [Text (times "=" 60)];
  [Text "Original lines:  "; Int original_lines];
  [Text "New lines:       "; Int new_lines];
  [Text "Reduction:       "; Int (original_lines - new_lines); Text " lines (";
   Fixed1 (Qmult (Qdiv (inject_Z (original_lines - new_lines))
                       (inject_Z original_lines))
                 (inject_Z 100));
   Text "%)"];
  [Text "
✅ All hooks integrated"];
  [Text "✅ Old logic removed"];
  [Text "✅ Display dialog updated"];
  [Text "
⚠️  Manual steps still required:"];
  [Text "   - Replace UI component JSX (6 components)"];
  [Text "   - Remove unused imports"];
  [Text "   - Final testing"]
].

End Complete.

(** ** scripts/final-phase-2-3.py *)

Module Final.

Definition file_path : string := "src/pages/Index.tsx".

Definition import_pattern : buffer := str (
"(import \{ ApiKeyTestDialog \} from " ++ dq ++ "@/components/ApiKeyTestDialog" ++ dq ++ ";)").

Definition import_addition : buffer := str (
"\1\nimport { useDisplayConfirmation } from " ++ dq ++ "@/hooks/useDisplayConfirmation" ++ dq ++ ";\nimport { useStorageSync } from " ++ dq ++ "@/hooks/useStorageSync" ++ dq ++ ";\nimport { usePlayerInitialization } from " ++ dq ++ "@/hooks/usePlayerInitialization" ++ dq ++ ";").

Definition import_addition_2 : buffer := str (
"\1\nimport { NowPlayingTicker } from " ++ dq ++ "@/components/NowPlayingTicker" ++ dq ++ ";\nimport { PlayerClosedNotification } from " ++ dq ++ "@/components/PlayerClosedNotification" ++ dq ++ ";\nimport { MiniPlayer } from " ++ dq ++ "@/components/MiniPlayer" ++ dq ++ ";\nimport { SearchButton } from " ++ dq ++ "@/components/SearchButton" ++ dq ++ ";\nimport { UpcomingQueue } from " ++ dq ++ "@/components/UpcomingQueue" ++ dq ++ ";\nimport { FooterControls } from " ++ dq ++ "@/components/FooterControls" ++ dq ++ ";").

Definition display_conf_pattern : buffer := str
"  const \[pendingDisplayConfirmation, setPendingDisplayConfirmation\] =\s+useState<\{[^}]+\} \| null>\(null\);[\s\S]*?const handleDisplayConfirmationCancel = useCallback\([^}]+\}\);".

Definition display_conf_replacement : buffer := str
"  // Display confirmation hook
  const displayConfirmation = useDisplayConfirmation();".

Definition storage_sync_addition : buffer := str
"
  // Storage synchronization hook (player window communication)
  useStorageSync({
    state,
    setState,
    addLog,
    handleVideoEnded,
    toast,
  });".

Definition player_init_addition : buffer := str
"

  // Player initialization hook (auto-start first song)
  usePlayerInitialization({
    state,
    initializePlayer,
    playNextSong,
  });".

Definition dialog_pattern : buffer := str
"\{pendingDisplayConfirmation && \(\s*<DisplayConfirmationDialog\s+displayInfo=\{pendingDisplayConfirmation\.displayInfo\}\s+onConfirm=\{handleDisplayConfirmationResponse\}\s+onCancel=\{handleDisplayConfirmationCancel\}\s+/>\s*\)\}".

Definition dialog_replacement : buffer := str
"<DisplayConfirmationDialog
        isOpen={!!displayConfirmation.pendingDisplayConfirmation}
        displayInfo={displayConfirmation.pendingDisplayConfirmation?.displayInfo || null}
        onConfirm={displayConfirmation.handleDisplayConfirmationResponse}
        onCancel={displayConfirmation.handleDisplayConfirmationCancel}
      />".

Definition now_playing_pattern : buffer := str
"\{/\* Now Playing Ticker - Responsive positioning and sizing \*/\}[\s\S]*?</Card>\s*</div>".

Definition now_playing_replacement : buffer := str
"{/* Now Playing Ticker */}
        <NowPlayingTicker currentlyPlaying={state.currentlyPlaying} />".

Definition player_closed_pattern : buffer := str
"\{/\* Player Closed Notification - Responsive positioning \*/\}[\s\S]*?\{/\* Credits display has been moved to the CreditsDisplay component \*/\}".

Definition player_closed_replacement : buffer := str
"{/* Player Window Closed Warning */}
        <PlayerClosedNotification
          playerWindow={state.playerWindow}
          isPlayerRunning={state.isPlayerRunning}
          onReopenPlayer={initializePlayer}
        />

        {/* Credits display has been moved to the CreditsDisplay component */}".

Definition mini_player_pattern : buffer := str
"\{/\* Search results embedded player \*/\}[\s\S]*?</div>\s*\)\s*\}\s*</div>".

Definition mini_player_replacement : buffer := str
"{/* Mini Player */}
        <MiniPlayer
          videoId={state.currentVideoId}
          showMiniPlayer={state.showMiniPlayer}
        />".

Definition search_button_pattern : buffer := str
"\{/\* Responsive search button \*/\}[\s\S]*?</Button>\s*</div>".

Definition search_button_replacement : buffer := str
"{/* Search Button */}
        <SearchButton
          onClick={() =>
            setState((prev) => ({
              ...prev,
              isSearchOpen: true,
              showKeyboard: true,
              showSearchResults: false,
            }))
          }
        />".

Definition upcoming_pattern : buffer := str
"\{/\* Test Mode Indicator - positioned above Coming Up ticker \*/\}[\s\S]*?</div>\s*</div>".

Definition upcoming_replacement : buffer := str
"{/* Upcoming Queue */}
        <UpcomingQueue
          upcomingTitles={getUpcomingTitles()}
          testMode={state.testMode}
        />".

Definition footer_pattern : buffer := str
"\{/\* Responsive admin button \*/\}[\s\S]*?</Button>\s*</div>".

Definition footer_replacement : buffer := str
"{/* Footer Controls */}
        <FooterControls
          onOpenAdmin={() =>
            setState((prev) => ({ ...prev, isAdminOpen: true }))
          }
        />".

Definition main : io unit :=
  do print [Text "Reading "; Text file_path; Text "..."] ;
  get content <- read_file file_path ;
  let original_lines := len (splitlines content) in
  do print [Text "Original file: "; Int original_lines; Text " lines"] ;

  do print [Text "
1. Adding hook imports..."] ;
  get content <- lift (re_sub import_pattern import_addition content []) ;

  do print [Text "2. Adding component imports..."] ;
  get content <- lift (re_sub import_pattern import_addition_2 content []) ;

  do print [Text "3. Replacing display confirmation logic..."] ;
  get content <- lift (re_sub display_conf_pattern display_conf_replacement
                              content [MULTILINE]) ;

  do print [Text "4. Adding useStorageSync hook call..."] ;
  let content := str_replace content
    (str "  // Display confirmation hook
  const displayConfirmation = useDisplayConfirmation();")
    (str "  // Display confirmation hook
  const displayConfirmation = useDisplayConfirmation();" ++ storage_sync_addition) in

  do print [Text "5. Adding usePlayerInitialization hook call..."] ;
  let content := str_replace content
    storage_sync_addition (storage_sync_addition ++ player_init_addition) in

  do print [Text "6. Updating usePlayerManager call..."] ;
  get content <- lift (re_sub
    (str "handleDisplayConfirmationNeeded,")
    (str "displayConfirmation.handleDisplayConfirmationNeeded,")
    content []) ;

  do print [Text "7. Updating DisplayConfirmationDialog props..."] ;
  get content <- lift (re_sub dialog_pattern dialog_replacement content [MULTILINE]) ;

  do print [Text "8. Replacing NowPlayingTicker component..."] ;
  get content <- lift (re_sub now_playing_pattern now_playing_replacement content []) ;

  do print [Text "9. Replacing PlayerClosedNotification component..."] ;
  get content <- lift (re_sub player_closed_pattern player_closed_replacement
                              content [MULTILINE]) ;

  do print [Text "10. Replacing MiniPlayer component..."] ;
  get content <- lift (re_sub mini_player_pattern mini_player_replacement content []) ;

  do print [Text "11. Replacing SearchButton component..."] ;
  get content <- lift (re_sub search_button_pattern search_button_replacement content []) ;

  do print [Text "12. Replacing UpcomingQueue component..."] ;
  get content <- lift (re_sub upcoming_pattern upcoming_replacement content []) ;

  do print [Text "13. Replacing FooterControls component..."] ;
  get content <- lift (re_sub footer_pattern footer_replacement content []) ;

  do print [Text "
Writing changes to "; Text file_path; Text "..."] ;
  do write_file file_path content ;

  let new_lines := len (splitlines content) in
  let reduction := (original_lines - new_lines)%Z in
  get ratio <- lift (truediv reduction original_lines) ;
  let percentage := Qmult ratio (inject_Z 100) in

  do print [Text "
âœ… INTEGRATION COMPLETE!"] ;
  do print [Text "Original lines: "; Int original_lines] ;
  do print [Text "New lines: "; Int new_lines] ;
  print [Text "Reduction: "; Int reduction; Text " lines (";
         Fixed1 percentage; Text "%)"].

(** The steps of [main] as a rule list, in textual order. *)
Definition rules : list rule := [
  Sub import_pattern import_addition [];
  Sub import_pattern import_addition_2 [];
  Sub display_conf_pattern display_conf_replacement [MULTILINE];
  Replace (str "  // Display confirmation hook
  const displayConfirmation = useDisplayConfirmation();")
          (str "  // Display confirmation hook
  const displayConfirmation = useDisplayConfirmation();" ++ storage_sync_addition);
  Replace storage_sync_addition (storage_sync_addition ++ player_init_addition);
  Sub (str "handleDisplayConfirmationNeeded,")
      (str "displayConfirmation.handleDisplayConfirmationNeeded,") [];
  Sub dialog_pattern dialog_replacement [MULTILINE];
  Sub now_playing_pattern now_playing_replacement [];
  Sub player_closed_pattern player_closed_replacement [MULTILINE];
  Sub mini_player_pattern mini_player_replacement [];
  Sub search_button_pattern search_button_replacement [];
  Sub upcoming_pattern upcoming_replacement [];
  Sub footer_pattern footer_replacement []
].

(** What [main] prints up to the write, and its summary. *)
Definition progress (original_lines : Z) : list (list frag) := [
  [Text "Reading "; Text file_path; Text "..."];
  [Text "Original file: "; Int original_lines; Text " lines"];
  [Text "
1. Adding hook imports..."];
  [Text "2. Adding component imports..."];
  [Text "3. Replacing display confirmation logic..."];
  [Text "4. Adding useStorageSync hook call..."];
  [Text "5. Adding usePlayerInitialization hook call..."];
  [Text "6. Updating usePlayerManager call..."];
  [Text "7. Updating DisplayConfirmationDialog props..."];
  [Text "8. Replacing NowPlayingTicker component..."];
  [Text "9. Replacing PlayerClosedNotification component..."];
  [Text "10. Replacing MiniPlayer component..."];
  [Text "11. Replacing SearchButton component..."];
  [Text "12. Replacing UpcomingQueue component..."];
  [Text "13. Replacing FooterControls component..."];
  [Text "
Writing changes to "; Text file_path; Text "..."]
].

Definition report (original_lines new_lines : Z) : list (list frag) := [
  [Text "
âœ… INTEGRATION COMPLETE!"];
  [Text "Original lines: "; Int original_lines];
  [Text "New lines: "; Int new_lines];
  [Text "Reduction: "; Int (original_lines - new_lines); Text " lines (";
   Fixed1 (Qmult (Qdiv (inject_Z (original_lines - new_lines))
                       (inject_Z original_lines))
                 (inject_Z 100));
   Text "%)"]
].

(** The lines the first two steps insert. *)
Definition hook_import_lines : list (list N) := [
  str ("import { useDisplayConfirmation } from " ++ dq ++ "@/hooks/useDisplayConfirmation" ++ dq ++ ";");
  str ("import { useStorageSync } from " ++ dq ++ "@/hooks/useStorageSync" ++ dq ++ ";");
  str ("import { usePlayerInitialization } from " ++ dq ++ "@/hooks/usePlayerInitialization" ++ dq ++ ";")
].

Definition component_import_lines : list (list N) := [
  str ("import { NowPlayingTicker } from " ++ dq ++ "@/components/NowPlayingTicker" ++ dq ++ ";");
  str ("import { PlayerClosedNotification } from " ++ dq ++ "@/components/PlayerClosedNotification" ++ dq ++ ";");
  str ("import { MiniPlayer } from " ++ dq ++ "@/components/MiniPlayer" ++ dq ++ ";");
  str ("import { SearchButton } from " ++ dq ++ "@/components/SearchButton" ++ dq ++ ";");
  str ("import { UpcomingQueue } from " ++ dq ++ "@/components/UpcomingQueue" ++ dq ++ ";");
  str ("import { FooterControls } from " ++ dq ++ "@/components/FooterControls" ++ dq ++ ";")
].

(** The landmark both steps look for. *)
Definition landmark : list N := str (
"import { ApiKeyTestDialog } from " ++ dq ++ "@/components/ApiKeyTestDialog" ++ dq ++ ";").

End Final.


(** ** Fixtures and run properties *)

(** The display-confirmation block in the shape the author captured it: the
    text that the pattern [old_display_logic] of integrate-phase-2-3.py
    spells out, with the escapes removed. *)
Definition captured_block : buffer := str
"  // Display confirmation callbacks - must be defined before usePlayerManager
  const [pendingDisplayConfirmation, setPendingDisplayConfirmation] = useState<{
    displayInfo: DisplayInfo;
    onConfirm: (useFullscreen: boolean, rememberChoice: boolean) => void;
    onCancel: () => void;
  } | null>(null);

  const handleDisplayConfirmationNeeded = useCallback(
    (
      displayInfo: DisplayInfo,
      onConfirm: (useFullscreen: boolean, rememberChoice: boolean) => void,
      onCancel: () => void,
    ) => {
      setPendingDisplayConfirmation({ displayInfo, onConfirm, onCancel });
    },
    [],
  );

  const handleDisplayConfirmationResponse = useCallback(
    (useFullscreen: boolean, rememberChoice: boolean) => {
      if (pendingDisplayConfirmation) {
        pendingDisplayConfirmation.onConfirm(useFullscreen, rememberChoice);
        setPendingDisplayConfirmation(null);
      }
    },
    [pendingDisplayConfirmation],
  );

  const handleDisplayConfirmationCancel = useCallback(() => {
    if (pendingDisplayConfirmation) {
      pendingDisplayConfirmation.onCancel();
      setPendingDisplayConfirmation(null);
    }
  }, [pendingDisplayConfirmation]);".

(** The display-confirmation rule of each script. *)
Definition integrate_display_rule : rule :=
  Sub Integrate.old_display_logic Integrate.new_display_logic [MULTILINE; DOTALL].

Definition complete_display_rule : rule :=
  Sub Complete.old_display_pattern Complete.new_display [DOTALL].

Definition final_display_rule : rule :=
  Sub Final.display_conf_pattern Final.display_conf_replacement [MULTILINE].

(** The import-insertion rule of integrate-phase-2-3.py and
    complete-phase-2-3.py (the same in both). *)
Definition hook_import_rule : rule :=
  Replace Integrate.api_key_rotation_import
          (Integrate.api_key_rotation_import ++ [LF] ++ Integrate.hook_imports).

(** The import line as the specification quotes it. *)
Definition spec_import_line : buffer := str (
"import { useApiKeyRotation } from " ++ dq ++ "lib/useApiKeyRotation" ++ dq ++ ";").

(** What a run did to the file: it wrote at most once; an exception other
    than the division of the summary means that nothing was written; without
    a write the disk is as it was; and what was written is the buffer behind
    the last rule. *)
Definition atomic_run (prog : io unit) (path : string) (rules : list rule)
    (w : world) : Prop :=
  exists log,
    writes (prog w).2 = writes w ++ log /\
    length log <= 1 /\
    (forall e, (prog w).1 = Raise e -> e <> ZeroDivisionError -> log = []) /\
    (log = [] -> disk (prog w).2 = disk w) /\
    (forall entry, entry ∈ log ->
       exists text final,
         disk w !! path = Some text /\
         reduce rules (universal_newlines text) = Ok final /\
         entry = (path, final) /\
         disk (prog w).2 = <[path := final]> (disk w)).

(** The three scripts under one name each.  [main] of final-phase-2-3.py
    takes no path: it always works on [Final.file_path]. *)
Inductive script := IntegratePhase | CompletePhase | FinalPhase.

Definition script_run (s : script) (path : string) : io unit :=
  match s with
  | IntegratePhase => Integrate.integrate_phase_2_3 path
  | CompletePhase => Complete.integrate_complete path
  | FinalPhase => Final.main
  end.

Definition script_path (s : script) (path : string) : string :=
  match s with
  | FinalPhase => Final.file_path
  | _ => path
  end.

Definition script_rules (s : script) : list rule :=
  match s with
  | IntegratePhase => Integrate.rules
  | CompletePhase => Complete.rules
  | FinalPhase => Final.rules
  end.

(** The line count a script reports for a buffer. *)
Definition line_count (s : script) (b : buffer) : Z :=
  match s with
  | FinalPhase => len (splitlines b)
  | _ => len (str_split b LF)
  end.

(** The three lines of a script's summary that carry numbers. *)
Definition summary (s : script) (original_lines new_lines : Z)
  : list (list frag) :=
  match s with
  | IntegratePhase =>
      [ [Text "Original lines: "; Int original_lines];
        [Text "New lines: "; Int new_lines];
        [Text "Change: "; Signed (new_lines - original_lines); Text " lines"] ]
  | CompletePhase =>
      [ [Text "Original lines:  "; Int original_lines];
        [Text "New lines:       "; Int new_lines];
        [Text "Reduction:       "; Int (original_lines - new_lines);
         Text " lines (";
         Fixed1 (Qmult (Qdiv (inject_Z (original_lines - new_lines))
                             (inject_Z original_lines))
                       (inject_Z 100));
         Text "%)"] ]
  | FinalPhase =>
      [ [Text "Original lines: "; Int original_lines];
        [Text "New lines: "; Int new_lines];
        [Text "Reduction: "; Int (original_lines - new_lines);
         Text " lines (";
         Fixed1 (Qmult (Qdiv (inject_Z (original_lines - new_lines))
                             (inject_Z original_lines))
                       (inject_Z 100));
         Text "%)"] ]
  end.

(** What a run printed. *)
Definition printed (prog : io unit) (w : world) : list (list frag) :=
  drop (length (console w)) (console (prog w).2).

(** A line of the console that shows a percentage. *)
Definition shows_percentage (l : list frag) : bool :=
  existsb (fun f => match f with Fixed1 _ => true | _ => false end) l.

(** A small world: one file, nothing printed or written yet. *)
Definition one_file (path : string) (text : buffer) : world :=
  World {[ path := text ]} ∅ [] [].

(** ** The [__main__] blocks *)

(** What a script leaves on the standard error stream: the line
    [print(f"... Error: {e}", file=sys.stderr)] of an [except] clause, or a
    traceback, printed by [traceback.print_exc()] or, for an exception that
    nothing catches, by the interpreter. *)
Inductive errline :=
| ErrorLine (e : exn)
| Traceback (e : exn).

(** How a process ends: its exit status, what it wrote to the standard error
    stream, and the world it leaves. *)
Record outcome := Outcome {
  exit_status : Z;
  stderr : list errline;
  world_after : world
}.

(** The path that integrate-phase-2-3.py and complete-phase-2-3.py pass. *)
Definition index_path : string :=
  "/Users/mikeclarkin/Documents/GitHub/obie-v4-3/src/pages/Index.tsx".

(** The three [if __name__ == "__main__":] blocks.  The first two catch
    every exception, report it and call [sys.exit(1)]; final-phase-2-3.py
    calls [main()] unguarded, so the interpreter prints the traceback and
    exits with status 1. *)
Definition script_main (s : script) (w : world) : outcome :=
  match s with
  | IntegratePhase =>
      match Integrate.integrate_phase_2_3 index_path w with
      | (Ok _, w') => Outcome 0 [] w'
      | (Raise e, w') => Outcome 1 [ErrorLine e] w'
      end
  | CompletePhase =>
      match Complete.integrate_complete index_path w with
      | (Ok _, w') => Outcome 0 [] w'
      | (Raise e, w') => Outcome 1 [ErrorLine e; Traceback e] w'
      end
  | FinalPhase =>
      match Final.main w with
      | (Ok _, w') => Outcome 0 [] w'
      | (Raise e, w') => Outcome 1 [Traceback e] w'
      end
  end.

(** ** Steps by name *)

(** The call-site step: integrate-phase-2-3.py and complete-phase-2-3.py do
    it with [str.replace], final-phase-2-3.py with [re.sub]. *)
Definition call_site : list N := str "handleDisplayConfirmationNeeded,".

Definition hook_prefix : list N := str "displayConfirmation.".

Definition rename_rule : rule :=
  Replace call_site (str "displayConfirmation.handleDisplayConfirmationNeeded,").

Definition final_rename_rule : rule :=
  Sub call_site (str "displayConfirmation.handleDisplayConfirmationNeeded,") [].

(** Steps 4 and 5 of final-phase-2-3.py. *)
Definition display_hook : list N := str
"  // Display confirmation hook
  const displayConfirmation = useDisplayConfirmation();".

Definition storage_step : rule :=
  Replace display_hook (display_hook ++ Final.storage_sync_addition).

Definition player_step : rule :=
  Replace Final.storage_sync_addition
          (Final.storage_sync_addition ++ Final.player_init_addition).

(** The positions (from 0) of the steps of a script that put text next to
    a locator and keep the locator. *)
Definition insertion_step (s : script) (i : nat) : bool :=
  match s with
  | IntegratePhase | CompletePhase => bool_decide (i ∈ [0; 1; 3; 4])
  | FinalPhase => bool_decide (i ∈ [0; 1; 3; 4; 5])
  end.

(** ** More vocabulary *)

(** The characters a template spells out itself. *)
Definition template_text (t : list titem) : list N :=
  flat_map (fun i => match i with TLit c => [c] | TRef _ => [] end) t.

(** The characters a rule can bring into a buffer. *)
Definition rule_text (r : rule) : list N :=
  match r with
  | Replace _ new => new
  | Sub pattern repl _ =>
      match re_compile pattern with
      | Ok (_, g) =>
          match parse_template repl g with
          | Ok t => template_text t
          | Raise _ => []
          end
      | Raise _ => []
      end
  end.

(** Every group holds characters of [S] only. *)
Definition within (S : list N) (gs : gmap nat (list N)) : Prop :=
  forall n v, gs !! n = Some v -> v ⊆ S.

(** No end of [old], short of [old] itself, starts [ins]. *)
Definition overlap_free (old ins : list N) : bool :=
  forallb (fun k => negb (startswith ins (drop k old))) (seq 1 (length old - 1)).

(** No occurrence of [S] starts inside [H] when [S] follows [H]. *)
Definition straddle_free (H S : list N) : bool :=
  forallb (fun t => negb (startswith (drop t H ++ S) S)) (seq 0 (length H)).

(** The text is empty or ends with a newline: no line is left open. *)
Definition no_open_line (s : list N) : bool :=
  match last s with
  | Some c => N.eqb c LF
  | None => true
  end.

(** The literal text every match of a pattern starts with, and whether the
    pattern is that text and nothing more. *)
Fixpoint literal_prefix (r : regex) : list N * bool :=
  match r with
  | RChar c => ([c], true)
  | REmpty => ([], true)
  | RCat r1 r2 =>
      let (p1, whole1) := literal_prefix r1 in
      if whole1 then
        let (p2, whole2) := literal_prefix r2 in (p1 ++ p2, whole2)
      else (p1, false)
  | RGroup _ r1 => literal_prefix r1
  | RIn _ _ | RRepeat _ _ _ => ([], false)
  end.

(** The text that has to occur in a buffer for a rule to do anything: the
    locator of a [str.replace], the literal start of a pattern. *)
Definition rule_header (r : rule) : list N :=
  match r with
  | Replace old _ => old
  | Sub pattern _ _ =>
      match re_compile pattern with
      | Ok (rx, _) => (literal_prefix rx).1
      | Raise _ => []
      end
  end.

(** * Properties *)

(** ** Strings *)

Lemma startswith_prefix (s pre : list N) :
  startswith s pre = true <-> exists rest, s = pre ++ rest.
Proof.
  revert s. induction pre as [|p pre IH]; intros s; simpl.
  - split; [intros _; by exists s | reflexivity].
  - destruct s as [|c s]; simpl.
    + split; [discriminate | intros [rest H]; discriminate].
    + rewrite andb_true_iff, N.eqb_eq, IH. split.
      * intros [-> [rest ->]]. by exists rest.
      * intros [rest H]. injection H as -> ->. eauto.
Qed.

Lemma startswith_app (pre rest : list N) : startswith (pre ++ rest) pre = true.
Proof. apply startswith_prefix. by exists rest. Qed.

Lemma startswith_nil_r (s : list N) : startswith s [] = true.
Proof. by destruct s. Qed.

Lemma startswith_length (s pre : list N) :
  startswith s pre = true -> length pre <= length s.
Proof.
  intros [rest ->]%startswith_prefix. rewrite length_app. lia.
Qed.

(** Only the first [length pre] characters of the subject matter. *)
Lemma startswith_app_l (a b pre : list N) :
  length pre <= length a -> startswith (a ++ b) pre = startswith a pre.
Proof.
  revert a. induction pre as [|p pre IH]; intros a Hlen; simpl.
  - done.
  - destruct a as [|c a]; simpl in *; [lia|].
    rewrite IH by lia. done.
Qed.

(** If [pre] starts [a ++ b], then [pre] and [a] start alike. *)
Lemma startswith_app_compat (a b pre : list N) :
  startswith (a ++ b) pre = true ->
  startswith a pre = true \/ startswith pre a = true.
Proof.
  revert a. induction pre as [|p pre IH]; intros a H; simpl.
  - by left.
  - destruct a as [|c a]; simpl in *; [by right|].
    apply andb_true_iff in H as [Hc H]. apply N.eqb_eq in Hc as ->.
    rewrite N.eqb_refl. simpl. by apply IH.
Qed.

Lemma find_nil_l (old : list N) : old <> [] -> find [] old = None.
Proof. by destruct old. Qed.

Lemma find_Some (s old : list N) (i : nat) :
  find s old = Some i ->
  s = take i s ++ old ++ drop (i + length old) s /\
  startswith (drop i s) old = true.
Proof.
  revert i. induction s as [|c s IH]; intros i; simpl.
  - destruct (startswith [] old) eqn:E; [|done].
    intros [= <-]. apply startswith_prefix in E as [rest E].
    destruct old; [|done]. done.
  - destruct (startswith (c :: s) old) eqn:E.
    + intros [= <-]. split; [|done].
      apply startswith_prefix in E as [rest E]. rewrite E at 1.
      simpl. f_equal. rewrite E, drop_app_length. done.
    + destruct (find s old) as [j|] eqn:F; [|done].
      simpl. intros [= <-]. destruct (IH j eq_refl) as [H1 H2].
      simpl. split; [|done]. f_equal. done.
Qed.

Lemma find_Some_le (s old : list N) (i : nat) :
  find s old = Some i -> i <= length s.
Proof.
  revert i. induction s as [|c s IH]; intros i; simpl.
  - destruct (startswith [] old); [intros [= <-]; lia | done].
  - destruct (startswith (c :: s) old); [intros [= <-]; lia|].
    destruct (find s old) as [k|]; [|done].
    simpl. intros [= <-]. specialize (IH k eq_refl). lia.
Qed.

Lemma find_Some_length (s old : list N) (i : nat) :
  find s old = Some i -> i + length old <= length s.
Proof.
  intros F. pose proof (find_Some_le _ _ _ F) as Hle.
  apply find_Some in F as [_ H]. apply startswith_length in H.
  rewrite length_drop in H. lia.
Qed.

(** No occurrence starts in front of the one that [find] returns. *)
Lemma find_first (s old : list N) (i j : nat) :
  find s old = Some i -> j < i -> startswith (drop j s) old = false.
Proof.
  revert i j. induction s as [|c s IH]; intros i j; simpl.
  - destruct (startswith [] old); [intros [= <-]; lia | done].
  - destruct (startswith (c :: s) old) eqn:E; [intros [= <-]; lia|].
    destruct (find s old) as [k|] eqn:F; [|done].
    simpl. intros [= <-] Hj. destruct j as [|j]; [done|].
    simpl. apply (IH k); [done | lia].
Qed.

Lemma find_None (s old : list N) (j : nat) :
  find s old = None -> startswith (drop j s) old = false.
Proof.
  revert j. induction s as [|c s IH]; intros j; simpl.
  - destruct (startswith [] old) eqn:E; [done|]. by rewrite drop_nil.
  - destruct (startswith (c :: s) old) eqn:E; [done|].
    destruct (find s old) eqn:F; [done|]. intros _.
    destruct j as [|j]; [done|]. simpl. by apply IH.
Qed.

(** [find] returns [None] exactly when nothing occurs, and the first
    occurrence otherwise. *)
Lemma find_intro (s old : list N) (i : nat) :
  startswith (drop i s) old = true ->
  (forall j, j < i -> startswith (drop j s) old = false) ->
  i <= length s ->
  find s old = Some i.
Proof.
  intros Hi Hfirst Hlen. destruct (find s old) as [k|] eqn:F.
  - f_equal. destruct (lt_eq_lt_dec k i) as [[Hlt|Heq]|Hgt]; [|done|].
    + apply find_Some in F as [_ F]. rewrite Hfirst in F by done. done.
    + rewrite (find_first _ _ _ _ F Hgt) in Hi. done.
  - rewrite (find_None _ _ i F) in Hi. done.
Qed.

(** *** [str.replace] and [str.count] without fuel *)

Lemma replace_from_fuel (f1 f2 : nat) (s old new : list N) :
  old <> [] -> length s <= f1 -> length s <= f2 ->
  replace_from f1 s old new = replace_from f2 s old new.
Proof.
  intros Hold. revert f2 s. induction f1 as [|f1 IH]; intros f2 s H1 H2.
  - destruct s; [|simpl in H1; lia].
    destruct f2; cbn [replace_from count_from]; [done|]. by rewrite find_nil_l.
  - destruct f2 as [|f2].
    + destruct s; [|simpl in H2; lia]. cbn [replace_from count_from]. by rewrite find_nil_l.
    + cbn [replace_from count_from]. destruct (find s old) as [i|] eqn:F; [|done].
      do 2 f_equal. apply find_Some_length in F.
      assert (0 < length old) by (destruct old; simpl; [done|lia]).
      apply IH; rewrite length_drop; lia.
Qed.

Lemma count_from_fuel (f1 f2 : nat) (s old : list N) :
  old <> [] -> length s <= f1 -> length s <= f2 ->
  count_from f1 s old = count_from f2 s old.
Proof.
  intros Hold. revert f2 s. induction f1 as [|f1 IH]; intros f2 s H1 H2.
  - destruct s; [|simpl in H1; lia].
    destruct f2; cbn [replace_from count_from]; [done|]. by rewrite find_nil_l.
  - destruct f2 as [|f2].
    + destruct s; [|simpl in H2; lia]. cbn [replace_from count_from]. by rewrite find_nil_l.
    + cbn [replace_from count_from]. destruct (find s old) as [i|] eqn:F; [|done].
      f_equal. apply find_Some_length in F.
      assert (0 < length old) by (destruct old; simpl; [done|lia]).
      apply IH; rewrite length_drop; lia.
Qed.

(** The loop equation of [str.replace]: the fuel has disappeared. *)
Lemma str_replace_unfold (s old new : list N) :
  old <> [] ->
  str_replace s old new =
    match find s old with
    | None => s
    | Some i => take i s ++ new ++ str_replace (drop (i + length old) s) old new
    end.
Proof.
  intros Hold. unfold str_replace. destruct old as [|o old]; [done|].
  destruct s as [|c s].
  - simpl. done.
  - cbn [length replace_from].
    destruct (find (c :: s) (o :: old)) as [i|] eqn:F; [|done].
    do 2 f_equal. apply find_Some_length in F.
    apply replace_from_fuel; [done| |lia].
    rewrite length_drop. simpl in *. lia.
Qed.

Lemma str_count_unfold (s old : list N) :
  old <> [] ->
  str_count s old =
    match find s old with
    | None => 0
    | Some i => S (str_count (drop (i + length old) s) old)
    end.
Proof.
  intros Hold. unfold str_count. destruct old as [|o old]; [done|].
  destruct s as [|c s].
  - simpl. done.
  - cbn [length count_from].
    destruct (find (c :: s) (o :: old)) as [i|] eqn:F; [|done].
    f_equal. apply find_Some_length in F.
    apply count_from_fuel; [done| |lia].
    rewrite length_drop. simpl in *. lia.
Qed.

Lemma gap_before_find (old g rest : list N) :
  gap_before old g -> find (g ++ old ++ rest) old = Some (length g).
Proof.
  intros Hg. apply find_intro.
  - rewrite drop_app_length. apply startswith_app.
  - intros j Hj. rewrite app_assoc, drop_app_le by (rewrite length_app; lia).
    rewrite startswith_app_l.
    + by apply (find_first _ _ _ _ Hg).
    + rewrite length_drop, length_app. lia.
  - rewrite length_app. lia.
Qed.

Lemma find_gap_before (s old : list N) (i : nat) :
  find s old = Some i -> gap_before old (take i s).
Proof.
  intros F. pose proof (find_Some_le _ _ _ F) as Hle.
  pose proof (find_Some _ _ _ F) as [Hs _].
  assert (Hlen : length (take i s) = i) by (rewrite length_take; lia).
  unfold gap_before. rewrite Hlen. apply find_intro.
  - rewrite <- Hlen at 1. rewrite drop_app_length.
    apply startswith_prefix. exists []. by rewrite app_nil_r.
  - intros j Hj. pose proof (find_first _ _ _ _ F Hj) as Hf.
    assert (E : drop j s = drop j (take i s ++ old) ++ drop (i + length old) s).
    { rewrite Hs at 1. rewrite app_assoc, drop_app_le; [done|].
      rewrite length_app. lia. }
    rewrite E, startswith_app_l in Hf; [done|].
    rewrite length_drop, length_app. lia.
  - rewrite length_app. lia.
Qed.

(** What [str.replace] does, as a decomposition of the subject: the gaps in
    front of the occurrences stay, every occurrence becomes [new], the tail
    stays, and there are as many occurrences as [str.count] says. *)
Lemma str_replace_gaps (s old new : list N) :
  old <> [] ->
  exists gaps tail,
    s = flat_map (fun g => g ++ old) gaps ++ tail /\
    str_replace s old new = flat_map (fun g => g ++ new) gaps ++ tail /\
    Forall (gap_before old) gaps /\
    find tail old = None /\
    str_count s old = length gaps.
Proof.
  intros Hold. remember (length s) as n eqn:Hn. revert s Hn.
  induction n as [n IH] using lt_wf_ind. intros s ->.
  rewrite str_replace_unfold, str_count_unfold by done.
  destruct (find s old) as [i|] eqn:F.
  - pose proof (find_Some_length _ _ _ F) as Hlen.
    pose proof (find_Some _ _ _ F) as [Hs _].
    assert (0 < length old) by (destruct old; simpl; [done|lia]).
    destruct (IH (length (drop (i + length old) s))) with (s := drop (i + length old) s)
      as (gaps & tail & E1 & E2 & HF & HT & HC); [rewrite length_drop; lia|done|].
    exists (take i s :: gaps), tail. simpl. repeat split.
    + rewrite <- !app_assoc, <- E1. done.
    + rewrite <- !app_assoc, <- E2. done.
    + constructor; [by eapply find_gap_before | done].
    + done.
    + by rewrite HC.
  - exists [], s. simpl. repeat split; done.
Qed.

(** Conversely, a subject that is laid out as gaps, occurrences and a tail is
    rewritten occurrence by occurrence. *)
Lemma str_replace_of_gaps (gaps : list (list N)) (tail old new : list N) :
  old <> [] ->
  Forall (gap_before old) gaps ->
  find tail old = None ->
  str_replace (flat_map (fun g => g ++ old) gaps ++ tail) old new =
  flat_map (fun g => g ++ new) gaps ++ tail.
Proof.
  intros Hold HF HT. induction HF as [|g gaps Hg HF IH]; simpl.
  - rewrite str_replace_unfold, HT by done. done.
  - rewrite str_replace_unfold by done. rewrite <- !app_assoc.
    rewrite (gap_before_find _ _ _ Hg).
    rewrite take_app_length.
    rewrite (app_assoc g old), <- length_app, drop_app_length.
    rewrite IH. done.
Qed.

(** *** Text inserted behind an occurrence *)

Lemma cross_free_startswith (old ins rest : list N) (j : nat) :
  cross_free old ins = true -> j < length ins ->
  startswith (drop j (ins ++ rest)) old = false.
Proof.
  revert j. induction ins as [|c ins IH]; intros j H Hj; simpl in Hj; [lia|].
  cbn [cross_free] in H. apply andb_true_iff in H as [H H3].
  apply andb_true_iff in H as [H1 H2].
  destruct j as [|j].
  - rewrite drop_0. destruct (startswith ((c :: ins) ++ rest) old) eqn:E; [|done].
    apply startswith_app_compat in E as [E|E]; rewrite E in *; done.
  - simpl. apply IH; [done | lia].
Qed.

Lemma find_behind_insert (old ins s : list N) :
  cross_free old ins = true ->
  find (ins ++ s) old = (fun i => length ins + i) <$> find s old.
Proof.
  intros Hc. destruct (find s old) as [i|] eqn:F; simpl.
  - apply find_intro.
    + rewrite drop_app_ge by lia.
      replace (length ins + i - length ins) with i by lia.
      by apply find_Some in F as [_ F].
    + intros j Hj. destruct (decide (j < length ins)).
      * by apply cross_free_startswith.
      * rewrite drop_app_ge by lia. apply (find_first _ _ _ _ F). lia.
    + apply find_Some_le in F. rewrite length_app. lia.
  - destruct (find (ins ++ s) old) as [k|] eqn:G; [|done].
    apply find_Some in G as [_ G]. destruct (decide (k < length ins)).
    + rewrite cross_free_startswith in G by done. done.
    + rewrite drop_app_ge in G by lia. rewrite (find_None _ _ _ F) in G. done.
Qed.

(** [str.replace] leaves a prefix alone in which no occurrence can start. *)
Lemma str_replace_behind_insert (old new ins s : list N) :
  old <> [] -> cross_free old ins = true ->
  str_replace (ins ++ s) old new = ins ++ str_replace s old new.
Proof.
  intros Hold Hc. rewrite (str_replace_unfold (ins ++ s)) by done.
  rewrite find_behind_insert by done.
  rewrite (str_replace_unfold s) by done.
  destruct (find s old) as [i|]; simpl; [|done].
  rewrite take_app_ge, drop_app_ge by lia.
  replace (length ins + i - length ins) with i by lia.
  replace (length ins + i + length old - length ins) with (i + length old) by lia.
  by rewrite <- app_assoc.
Qed.

(** A second replacement on a text in which [ins] was put behind every
    occurrence: the occurrences are found again, each at its place. *)
Lemma str_replace_after_insert (gaps : list (list N)) (tail old new ins : list N) :
  old <> [] ->
  Forall (gap_before old) gaps ->
  find tail old = None ->
  cross_free old ins = true ->
  str_replace (flat_map (fun g => g ++ old ++ ins) gaps ++ tail) old new =
  flat_map (fun g => g ++ new ++ ins) gaps ++ tail.
Proof.
  intros Hold HF HT Hc. induction HF as [|g gaps Hg HF IH]; simpl.
  - rewrite str_replace_unfold, HT by done. done.
  - rewrite str_replace_unfold by done. rewrite <- !app_assoc.
    rewrite (gap_before_find _ _ _ Hg).
    rewrite take_app_length.
    rewrite (app_assoc g old), <- length_app, drop_app_length.
    rewrite str_replace_behind_insert, IH by done. done.
Qed.

(** ** The matcher *)

(** *** Soundness: what the engine accepts is in the language *)

Section RepeatLoop.
Variable body : list N -> gmap nat (list N) ->
  (list N -> gmap nat (list N) -> option (list N * gmap nat (list N))) ->
  option (list N * gmap nat (list N)).
Variable L : list N -> Prop.
Hypothesis body_sound : forall s gs k res,
  body s gs k = Some res ->
  exists w s1 gs1, s = w ++ s1 /\ L w /\ k s1 gs1 = Some res.

Lemma repeat_loop_sound greedy mn k fuel count s gs res :
  repeat_loop body greedy mn k fuel count s gs = Some res ->
  exists ws s1 gs1,
    s = concat ws ++ s1 /\ Forall L ws /\ mn <= count + length ws /\
    k s1 gs1 = Some res.
Proof.
  revert count s gs. induction fuel as [|fuel IH]; intros count s gs; [done|].
  cbn [repeat_loop].
  set (again := body s gs _).
  assert (Hleave : (if mn <=? count then k s gs else None) = Some res ->
    exists ws s1 gs1, s = concat ws ++ s1 /\ Forall L ws /\
      mn <= count + length ws /\ k s1 gs1 = Some res).
  { destruct (Nat.leb_spec mn count); [|done]. intros Hk.
    exists [], s, gs. simpl. repeat split; [constructor | lia | done]. }
  assert (Hagain : again = Some res ->
    exists ws s1 gs1, s = concat ws ++ s1 /\ Forall L ws /\
      mn <= count + length ws /\ k s1 gs1 = Some res).
  { unfold again. intros H. apply body_sound in H as (w & s1 & gs1 & -> & Hw & H).
    destruct (Nat.ltb_spec (length s1) (length (w ++ s1))) as [Hlt|Hge].
    - apply IH in H as (ws & s2 & gs2 & -> & Hws & Hn & H).
      exists (w :: ws), s2, gs2. simpl. rewrite <- app_assoc.
      repeat split; [by constructor | lia | done].
    - rewrite length_app in Hge. assert (w = []) as -> by (destruct w; simpl in *; [done|lia]).
      exists (replicate mn []), s1, gs1. repeat split.
      + simpl. clear. induction mn; simpl; [done|]. done.
      + clear -Hw. induction mn; simpl; constructor; done.
      + rewrite length_replicate. lia.
      + done. }
  destruct greedy.
  - destruct again; [intros [= <-]; by apply Hagain|]. exact Hleave.
  - destruct (if mn <=? count then k s gs else None);
      [intros [= <-]; by apply Hleave|]. exact Hagain.
Qed.
End RepeatLoop.

Lemma rmatch_sound (r : regex) s gs k res :
  rmatch r s gs k = Some res ->
  exists w s1 gs1, s = w ++ s1 /\ in_lang r w /\ k s1 gs1 = Some res.
Proof.
  revert s gs k res. induction r as [c|negate items| |r1 IH1 r2 IH2|greedy mn r1 IH|n r1 IH];
    intros s gs k res; cbn [rmatch in_lang].
  - destruct s as [|x s]; [done|]. destruct (N.eqb_spec x c) as [->|]; [|done].
    intros H. by exists [c], s, gs.
  - destruct s as [|x s]; [done|]. destruct (in_set negate items x) eqn:E; [|done].
    intros H. exists [x], s, gs. repeat split; eauto.
  - intros H. by exists [], s, gs.
  - intros H. apply IH1 in H as (w1 & s1 & gs1 & -> & Hw1 & H).
    apply IH2 in H as (w2 & s2 & gs2 & -> & Hw2 & H).
    exists (w1 ++ w2), s2, gs2. rewrite <- app_assoc. repeat split; eauto.
  - intros H. apply (repeat_loop_sound _ _ IH) in H as (ws & s1 & gs1 & -> & Hws & Hn & H).
    exists (concat ws), s1, gs1. repeat split; [|done].
    exists ws. repeat split; [lia | done].
  - intros H. apply IH in H as (w & s1 & gs1 & -> & Hw & H).
    exists w, s1. eexists. repeat split; eauto.
Qed.

Lemma match_at_sound (r : regex) (must_advance : bool) s rest gs :
  match_at r must_advance s = Some (rest, gs) ->
  exists w, s = w ++ rest /\ in_lang r w /\ (must_advance = true -> w <> []).
Proof.
  unfold match_at. intros H.
  apply rmatch_sound in H as (w & s1 & gs1 & -> & Hw & H).
  destruct must_advance; simpl in H.
  - destruct (Nat.eqb_spec (length s1) (length (w ++ s1))) as [E|E]; [done|].
    injection H as <- <-. exists w. repeat split; [done|].
    intros _ ->. done.
  - injection H as <- <-. exists w. repeat split; [done|]. done.
Qed.

(** The leftmost match: the subject is the text in front of the match, the
    match and the rest. *)
Lemma search_sound (r : regex) (must_advance : bool) s i rest gs :
  search r must_advance s = Some (i, rest, gs) ->
  exists w, s = take i s ++ w ++ rest /\ i <= length s /\ in_lang r w /\
            (must_advance = true -> i = 0 -> w <> []).
Proof.
  revert must_advance i. induction s as [|c s IH]; intros ma i; cbn [search].
  - destruct (match_at r ma []) as [[rest' gs']|] eqn:M; [|done].
    intros [= <- <- <-]. apply match_at_sound in M as (w & E & Hw & Hma).
    exists w. repeat split; eauto.
  - destruct (match_at r ma (c :: s)) as [[rest' gs']|] eqn:M.
    + intros [= <- <- <-]. apply match_at_sound in M as (w & E & Hw & Hma).
      exists w. repeat split; eauto. simpl. lia.
    + destruct (search r false s) as [[[j rest'] gs']|] eqn:Se; [|done].
      intros [= <- <- <-]. apply IH in Se as (w & E & Hle & Hw & _).
      exists w. simpl. repeat split; [by f_equal | lia | done | done].
Qed.

(** *** The fuel of a repeat is never used up *)

Section RepeatFuel.
Variable body : list N -> gmap nat (list N) ->
  (list N -> gmap nat (list N) -> option (list N * gmap nat (list N))) ->
  option (list N * gmap nat (list N)).
Hypothesis body_local : forall s gs k k',
  (forall s1 gs1, length s1 <= length s -> k s1 gs1 = k' s1 gs1) ->
  body s gs k = body s gs k'.

Lemma repeat_loop_local greedy mn k k' fuel count s gs :
  (forall s1 gs1, length s1 <= length s -> k s1 gs1 = k' s1 gs1) ->
  repeat_loop body greedy mn k fuel count s gs =
  repeat_loop body greedy mn k' fuel count s gs.
Proof.
  revert count s gs. induction fuel as [|fuel IH]; intros count s gs Hk; [done|].
  cbn [repeat_loop].
  rewrite (Hk s gs) by done.
  rewrite (body_local s gs _
    (fun s1 gs1 => if length s1 <? length s
                   then repeat_loop body greedy mn k' fuel (S count) s1 gs1
                   else k' s1 gs1)); [done|].
  intros s1 gs1 Hs1. destruct (Nat.ltb_spec (length s1) (length s)).
  - apply IH. intros s2 gs2 Hs2. apply Hk. lia.
  - by apply Hk.
Qed.

Lemma repeat_loop_fuel greedy mn k f1 f2 count s gs :
  length s < f1 -> length s < f2 ->
  repeat_loop body greedy mn k f1 count s gs =
  repeat_loop body greedy mn k f2 count s gs.
Proof.
  revert f2 count s gs. induction f1 as [|f1 IH]; intros f2 count s gs H1 H2; [lia|].
  destruct f2 as [|f2]; [lia|]. cbn [repeat_loop].
  rewrite (body_local s gs _
    (fun s1 gs1 => if length s1 <? length s
                   then repeat_loop body greedy mn k f2 (S count) s1 gs1
                   else k s1 gs1)); [done|].
  intros s1 gs1 Hs1. destruct (Nat.ltb_spec (length s1) (length s)); [|done].
  apply IH; lia.
Qed.
End RepeatFuel.

Lemma rmatch_local (r : regex) s gs k k' :
  (forall s1 gs1, length s1 <= length s -> k s1 gs1 = k' s1 gs1) ->
  rmatch r s gs k = rmatch r s gs k'.
Proof.
  revert s gs k k'.
  induction r as [c|negate items| |r1 IH1 r2 IH2|greedy mn r1 IH|n r1 IH];
    intros s gs k k' Hk; cbn [rmatch].
  - destruct s as [|x s]; [done|]. destruct (N.eqb x c); [|done].
    apply Hk. simpl. lia.
  - destruct s as [|x s]; [done|]. destruct (in_set negate items x); [|done].
    apply Hk. simpl. lia.
  - by apply Hk.
  - apply IH1. intros s1 gs1 Hs1. apply IH2. intros s2 gs2 Hs2. apply Hk. lia.
  - apply repeat_loop_local; [exact IH | done].
  - apply IH. intros s1 gs1 Hs1. by apply Hk.
Qed.

(** Any fuel beyond the length of the subject gives the repeat the same
    result: the amount that [rmatch] passes is enough. *)
Lemma rmatch_repeat_fuel greedy mn (r : regex) fuel s gs k :
  length s < fuel ->
  rmatch (RRepeat greedy mn r) s gs k =
  repeat_loop (rmatch r) greedy mn k fuel 0 s gs.
Proof.
  intros Hf. cbn [rmatch].
  apply repeat_loop_fuel; [apply rmatch_local | lia | done].
Qed.

(** *** The loop of [re.sub] *)

Lemma search_measure (r : regex) (must_advance : bool) s i rest gs :
  search r must_advance s = Some (i, rest, gs) ->
  sub_measure rest (length rest =? length s - i) < sub_measure s must_advance.
Proof.
  intros H. apply search_sound in H as (w & E & Hi & _ & Hma).
  apply (f_equal length) in E. rewrite !length_app, length_take in E.
  unfold sub_measure.
  destruct (Nat.eqb_spec (length rest) (length s - i)) as [Heq|Hne].
  - destruct must_advance; [|lia].
    destruct i; [|lia]. destruct w; [by destruct Hma|]. simpl in E. lia.
  - destruct must_advance; lia.
Qed.

(** Once the fuel exceeds the measure, its amount does not matter. *)
Lemma sub_from_fuel (r : regex) (t : list titem) f1 f2 must_advance s :
  sub_measure s must_advance < f1 -> sub_measure s must_advance < f2 ->
  sub_from f1 r t must_advance s = sub_from f2 r t must_advance s.
Proof.
  revert f2 must_advance s. induction f1 as [|f1 IH]; intros f2 ma s H1 H2; [lia|].
  destruct f2 as [|f2]; [lia|]. cbn [sub_from].
  destruct (search r ma s) as [[[i rest] gs]|] eqn:Se; [|done].
  apply search_measure in Se. do 2 f_equal. apply IH; lia.
Qed.

Lemma count_matches_fuel (r : regex) f1 f2 must_advance s :
  sub_measure s must_advance < f1 -> sub_measure s must_advance < f2 ->
  count_matches f1 r must_advance s = count_matches f2 r must_advance s.
Proof.
  revert f2 must_advance s. induction f1 as [|f1 IH]; intros f2 ma s H1 H2; [lia|].
  destruct f2 as [|f2]; [lia|]. cbn [count_matches].
  destruct (search r ma s) as [[[i rest] gs]|] eqn:Se; [|done].
  apply search_measure in Se. f_equal. apply IH; lia.
Qed.

(** What [re.sub] does, as a layout of the subject: the text outside the
    matches is copied, every match is a text of the pattern's language and is
    replaced by an expansion of the template, and the number of replaced
    spans is the number of matches. *)
Lemma sub_from_segments (r : regex) (t : list titem) fuel must_advance s :
  sub_measure s must_advance < fuel ->
  exists segs tail,
    s = before segs tail /\
    sub_from fuel r t must_advance s = after segs tail /\
    Forall (fun x => in_lang r (matched x) /\
                     exists gs, replacement x = expand t gs) segs /\
    length segs = count_matches fuel r must_advance s.
Proof.
  revert must_advance s. induction fuel as [|fuel IH]; intros ma s Hm; [lia|].
  cbn [sub_from count_matches].
  destruct (search r ma s) as [[[i rest] gs]|] eqn:Se.
  - pose proof (search_measure _ _ _ _ _ _ Se) as Hdec.
    apply search_sound in Se as (w & E & Hi & Hw & _).
    destruct (IH (length rest =? length s - i) rest) as (segs & tail & E1 & E2 & HF & HC);
      [lia|].
    exists (Segment (take i s) w (expand t gs) :: segs), tail.
    unfold before, after in *. simpl. repeat split.
    + rewrite <- !app_assoc, <- E1. done.
    + rewrite <- !app_assoc, <- E2. done.
    + constructor; [|done]. simpl. eauto.
    + by rewrite HC.
  - exists [], s. unfold before, after. simpl. repeat split; done.
Qed.

(** *** Literal patterns *)

Lemma rmatch_lits (L : list N) : literal_regex (lits L) L id.
Proof.
  induction L as [|c L IH]; intros s gs k; simpl.
  - by rewrite drop_0.
  - destruct s as [|x s]; [done|]. simpl.
    destruct (N.eqb x c); [|done]. simpl. apply IH.
Qed.

Lemma rmatch_group_lits (n : nat) (L : list N) :
  literal_regex (RCat (RGroup n (lits L)) REmpty) L (insert n L).
Proof.
  intros s gs k. cbn [rmatch]. rewrite rmatch_lits. simpl.
  destruct (startswith s L) eqn:E; [|done].
  apply startswith_prefix in E as [rest ->].
  rewrite drop_app_length, length_app.
  replace (length L + length rest - length rest) with (length L) by lia.
  by rewrite take_app_length.
Qed.

Section Literal.
Variables (r : regex) (L : list N) (G : gmap nat (list N) -> gmap nat (list N)).
Hypothesis r_literal : literal_regex r L G.
Hypothesis L_nonempty : L <> [].

Lemma match_at_literal must_advance s :
  match_at r must_advance s =
  if startswith s L then Some (drop (length L) s, G ∅) else None.
Proof.
  unfold match_at. rewrite r_literal.
  destruct (startswith s L) eqn:E; [|done].
  apply startswith_length in E.
  assert (0 < length L) by (destruct L; simpl; [done|lia]).
  destruct (Nat.eqb_spec (length (drop (length L) s)) (length s)) as [H1|H1].
  - rewrite length_drop in H1. lia.
  - by rewrite andb_false_r.
Qed.

Lemma search_literal must_advance s :
  search r must_advance s =
  (fun i => (i, drop (i + length L) s, G ∅)) <$> find s L.
Proof.
  revert must_advance. induction s as [|c s IH]; intros ma;
    cbn [search find]; rewrite match_at_literal.
  - by destruct (startswith [] L).
  - destruct (startswith (c :: s) L); [done|].
    rewrite IH. by destruct (find s L).
Qed.

(** On a literal pattern [re.sub] is [str.replace]. *)
Lemma sub_from_literal (t : list titem) fuel must_advance s :
  sub_measure s must_advance < fuel ->
  sub_from fuel r t must_advance s = str_replace s L (expand t (G ∅)).
Proof.
  revert must_advance s. induction fuel as [|fuel IH]; intros ma s Hm; [lia|].
  cbn [sub_from]. rewrite str_replace_unfold by done.
  destruct (search r ma s) as [[[i rest] gs]|] eqn:Se.
  - pose proof (search_measure _ _ _ _ _ _ Se) as Hdec.
    rewrite search_literal in Se.
    destruct (find s L) as [j|]; [|done]. simpl in Se.
    injection Se as <- <- <-. do 2 f_equal. apply IH. lia.
  - rewrite search_literal in Se. by destruct (find s L).
Qed.

Lemma count_matches_literal fuel must_advance s :
  sub_measure s must_advance < fuel ->
  count_matches fuel r must_advance s = str_count s L.
Proof.
  revert must_advance s. induction fuel as [|fuel IH]; intros ma s Hm; [lia|].
  cbn [count_matches]. rewrite str_count_unfold by done.
  destruct (search r ma s) as [[[i rest] gs]|] eqn:Se.
  - pose proof (search_measure _ _ _ _ _ _ Se) as Hdec.
    rewrite search_literal in Se.
    destruct (find s L) as [j|]; [|done]. simpl in Se.
    injection Se as <- <- <-. f_equal. apply IH. lia.
  - rewrite search_literal in Se. by destruct (find s L).
Qed.
End Literal.

(** ** Rules *)

Lemma re_sub_compiled pattern repl rx g t s flags :
  re_compile pattern = Ok (rx, g) -> parse_template repl g = Ok t ->
  re_sub pattern repl s flags = Ok (sub_from (2 * length s + 2) rx t false s).
Proof. intros Hp Ht. unfold re_sub. rewrite Hp. simpl. rewrite Ht. done. Qed.

Lemma rule_wf_sub pattern repl flags :
  rule_wf (Sub pattern repl flags) = true ->
  exists rx g t, re_compile pattern = Ok (rx, g) /\ parse_template repl g = Ok t.
Proof.
  simpl. destruct (re_compile pattern) as [[rx g]|]; [|done].
  destruct (parse_template repl g) as [t|] eqn:Ht; [|done].
  intros _. by exists rx, g, t.
Qed.

(** A well-formed rule never raises, whatever the buffer is. *)
Lemma applyRule_total (r : rule) (b : list N) :
  rule_wf r = true -> exists b', applyRule b r = Ok b'.
Proof.
  destruct r as [old new|pattern repl flags]; intros Hwf.
  - simpl. eauto.
  - apply rule_wf_sub in Hwf as (rx & g & t & Hp & Ht).
    simpl. erewrite re_sub_compiled by done. eauto.
Qed.

(** Whether a rule raises depends on the rule alone. *)
Lemma applyRule_is_ok (r : rule) (b : list N) :
  is_ok (applyRule b r) = rule_wf r.
Proof.
  destruct r as [old new|pattern repl flags]; [done|].
  simpl. unfold re_sub. destruct (re_compile pattern) as [[rx g]|]; [|done].
  simpl. by destruct (parse_template repl g).
Qed.

Lemma sub_measure_fuel (s : list N) : sub_measure s false < 2 * length s + 2.
Proof. unfold sub_measure. lia. Qed.

(** The layout of a rewritten buffer, for every kind of rule. *)
Lemma applyRule_segments (r : rule) (b b' : list N) :
  applyRule b r = Ok b' ->
  exists segs tail,
    b = before segs tail /\ b' = after segs tail /\
    Forall (span_of r) segs /\ length segs = match_count r b.
Proof.
  destruct r as [old new|pattern repl flags]; simpl.
  - intros [= <-]. destruct old as [|o old].
    + (* the empty locator matches in front of every character and at the end *)
      exists (Segment [] [] new :: map (fun c => Segment [c] [] new) b), [].
      unfold before, after, str_replace, str_count. simpl.
      rewrite !app_nil_r, length_map. repeat split.
      * induction b as [|c b IH]; simpl; [done|]. by f_equal.
      * f_equal. induction b as [|c b IH]; simpl; [done|]. by rewrite IH.
      * constructor; [done|]. apply Forall_forall. intros x Hx.
        apply list_elem_of_fmap in Hx as (c & -> & _). done.
    + destruct (str_replace_gaps b (o :: old) new) as (gaps & tail & E1 & E2 & _ & _ & HC);
        [done|].
      exists (map (fun g => Segment g (o :: old) new) gaps), tail.
      unfold before, after. rewrite length_map. repeat split.
      * rewrite E1 at 1. f_equal. clear. induction gaps; simpl; [done|]. by f_equal.
      * rewrite E2. f_equal. clear. induction gaps; simpl; [done|]. by f_equal.
      * apply Forall_forall. intros x Hx.
        apply list_elem_of_fmap in Hx as (c & -> & _). done.
      * done.
  - unfold re_sub. destruct (re_compile pattern) as [[rx g]|] eqn:Hp; [|done].
    simpl. destruct (parse_template repl g) as [t|] eqn:Ht; [|done].
    simpl. intros [= <-].
    destruct (sub_from_segments rx t _ false b (sub_measure_fuel b))
      as (segs & tail & E1 & E2 & HF & HC).
    exists segs, tail. repeat split; [done | done | | done].
    eapply Forall_impl; [exact HF|]. intros x [Hx [gs Hr]]. simpl.
    exists rx, g, t, gs. done.
Qed.

(** ** Runs *)

Lemma str_split_length (s : list N) (sep : N) : 1 <= length (str_split s sep).
Proof.
  induction s as [|c s IH]; simpl; [lia|].
  destruct (N.eqb c sep); simpl; [lia|].
  destruct (str_split s sep); simpl; lia.
Qed.

Lemma reduce_app (rs1 rs2 : list rule) (b : list N) :
  reduce (rs1 ++ rs2) b = try b1 <- reduce rs1 b ; reduce rs2 b1.
Proof.
  unfold reduce. rewrite fold_left_app.
  generalize (fold_left (fun acc r => try b0 <- acc; applyRule b0 r) rs1 (Ok b)).
  intros [b1|e]; [done|]. simpl.
  induction rs2 as [|r rs2 IH]; simpl; done.
Qed.

Lemma reduce_cons (r : rule) (rs : list rule) (b : list N) :
  reduce (r :: rs) b = try b1 <- applyRule b r ; reduce rs b1.
Proof. apply (reduce_app [r] rs b). Qed.

(** Well-formed rules run to the end. *)
Lemma reduce_total (rs : list rule) (b : list N) :
  forallb rule_wf rs = true -> reduce rs b = Ok (final_buffer rs b).
Proof.
  unfold final_buffer. revert b. induction rs as [|r rs IH]; intros b H; [done|].
  simpl in H. apply andb_true_iff in H as [Hr H].
  rewrite reduce_cons. destruct (applyRule_total r b Hr) as [b1 ->]. simpl.
  rewrite IH by done. by destruct (reduce rs b1).
Qed.

Lemma integrate_rules_wf : forallb rule_wf Integrate.rules = true.
Proof. vm_compute. reflexivity. Qed.

Lemma complete_rules_wf : forallb rule_wf Complete.rules = true.
Proof. vm_compute. reflexivity. Qed.

Lemma final_rules_wf : forallb rule_wf Final.rules = true.
Proof. vm_compute. reflexivity. Qed.

(** *** The runs in closed form *)

Lemma Ok_inj {A} (a b : A) : Ok a = Ok b -> a = b.
Proof. by intros [=]. Qed.

Lemma len_split_nonzero (s : list N) (sep : N) :
  Z.eqb (len (str_split s sep)) 0 = false.
Proof.
  unfold len. pose proof (str_split_length s sep). apply Z.eqb_neq. lia.
Qed.

Ltac run_io :=
  cbv [bind print read_file lift write_file truediv
       disk readonly console writes].

Lemma integrate_run (path : string) (w : world) :
  Integrate.integrate_phase_2_3 path w =
  match disk w !! path with
  | None =>
      (Raise (FileNotFoundError path),
       World (disk w) (readonly w)
             (console w ++ [[Text "Reading Index.tsx..."]]) (writes w))
  | Some text =>
      let snapshot := universal_newlines text in
      let final := final_buffer Integrate.rules snapshot in
      if decide (path ∈ readonly w) then
        (Raise (PermissionError path),
         World (disk w) (readonly w) (console w ++ Integrate.progress) (writes w))
      else
        (Ok tt,
         World (<[path := final]> (disk w)) (readonly w)
               (console w ++ Integrate.progress ++
                Integrate.report (len (str_split snapshot LF))
                                 (len (str_split final LF)))
               (writes w ++ [(path, final)]))
  end.
Proof.
  unfold Integrate.integrate_phase_2_3. destruct w as [d ro c wr]. run_io.
  destruct (d !! path) as [text|]; [|reflexivity].
  pose proof (reduce_total Integrate.rules (universal_newlines text)
                integrate_rules_wf) as HR.
  unfold reduce in HR. cbn [fold_left Integrate.rules rbind applyRule] in HR.
  revert HR.
  destruct (re_sub _ _ _ _) as [c1|e1]; cbn [rbind]; [|intros [=]].
  intros HR%Ok_inj. rewrite <- HR. clear HR.
  destruct (decide (path ∈ ro)).
  - unfold Integrate.progress. by rewrite <- !app_assoc.
  - unfold Integrate.progress, Integrate.report. by rewrite <- !app_assoc.
Qed.

Lemma complete_run (path : string) (w : world) :
  Complete.integrate_complete path w =
  match disk w !! path with
  | None =>
      (Raise (FileNotFoundError path),
       World (disk w) (readonly w)
             (console w ++ take 4 (Complete.progress 0)) (writes w))
  | Some text =>
      let snapshot := universal_newlines text in
      let final := final_buffer Complete.rules snapshot in
      let original_lines := len (str_split snapshot LF) in
      if decide (path ∈ readonly w) then
        (Raise (PermissionError path),
         World (disk w) (readonly w)
               (console w ++ Complete.progress original_lines) (writes w))
      else
        (Ok tt,
         World (<[path := final]> (disk w)) (readonly w)
               (console w ++ Complete.progress original_lines ++
                Complete.report original_lines (len (str_split final LF)))
               (writes w ++ [(path, final)]))
  end.
Proof.
  unfold Complete.integrate_complete. destruct w as [d ro c wr]. run_io.
  destruct (d !! path) as [text|].
  2: { cbn [take Complete.progress]. by rewrite <- !app_assoc. }
  pose proof (reduce_total Complete.rules (universal_newlines text)
                complete_rules_wf) as HR.
  unfold reduce in HR. cbn [fold_left Complete.rules rbind applyRule] in HR.
  revert HR.
  destruct (re_sub _ _ _ _) as [c1|e1]; cbn [rbind]; [|intros [=]].
  destruct (re_sub _ _ _ _) as [c2|e2]; cbn [rbind]; [|intros [=]].
  destruct (re_sub _ _ _ _) as [c3|e3]; cbn [rbind]; [|intros [=]].
  destruct (re_sub _ _ _ _) as [c4|e4]; cbn [rbind]; [|intros [=]].
  intros HR%Ok_inj. rewrite <- HR. clear HR.
  rewrite len_split_nonzero.
  destruct (decide (path ∈ ro)).
  - unfold Complete.progress. by rewrite <- !app_assoc.
  - unfold Complete.progress, Complete.report. by rewrite <- !app_assoc.
Qed.

Lemma final_run (w : world) :
  Final.main w =
  match disk w !! Final.file_path with
  | None =>
      (Raise (FileNotFoundError Final.file_path),
       World (disk w) (readonly w)
             (console w ++ take 1 (Final.progress 0)) (writes w))
  | Some text =>
      let snapshot := universal_newlines text in
      let final := final_buffer Final.rules snapshot in
      let original_lines := len (splitlines snapshot) in
      if decide (Final.file_path ∈ readonly w) then
        (Raise (PermissionError Final.file_path),
         World (disk w) (readonly w)
               (console w ++ Final.progress original_lines) (writes w))
      else if Z.eqb original_lines 0 then
        (Raise ZeroDivisionError,
         World (<[Final.file_path := final]> (disk w)) (readonly w)
               (console w ++ Final.progress original_lines)
               (writes w ++ [(Final.file_path, final)]))
      else
        (Ok tt,
         World (<[Final.file_path := final]> (disk w)) (readonly w)
               (console w ++ Final.progress original_lines ++
                Final.report original_lines (len (splitlines final)))
               (writes w ++ [(Final.file_path, final)]))
  end.
Proof.
  unfold Final.main. destruct w as [d ro c wr]. run_io.
  destruct (d !! Final.file_path) as [text|]; [|reflexivity].
  pose proof (reduce_total Final.rules (universal_newlines text)
                final_rules_wf) as HR.
  unfold reduce in HR. cbn [fold_left Final.rules rbind applyRule] in HR.
  revert HR.
  do 11 (destruct (re_sub _ _ _ _) as [?|?]; cbn [rbind]; [|intros [=]]).
  intros HR%Ok_inj. rewrite <- HR. clear HR.
  destruct (decide (Final.file_path ∈ ro)).
  - unfold Final.progress. by rewrite <- !app_assoc.
  - destruct (Z.eqb _ 0).
    + unfold Final.progress. by rewrite <- !app_assoc.
    + unfold Final.progress, Final.report. by rewrite <- !app_assoc.
Qed.

(** ** Persistence *)

Ltac nothing_written :=
  exists []; cbn [fst snd disk writes]; rewrite ?app_nil_r;
  split; [reflexivity|]; split; [simpl; lia|];
  split; [done|]; split; [done|];
  intros entry H; by apply elem_of_nil in H.

Ltac written_once text wf :=
  eexists [_]; cbn [fst snd disk writes];
  split; [reflexivity|]; split; [simpl; lia|];
  split; [first [by intros e [=] | by intros e [= <-]]|];
  split; [intros [=]|];
  intros entry ->%list_elem_of_singleton;
  eexists text, _; split; [done|];
  split; [by apply reduce_total, wf|]; split; reflexivity.

Lemma integrate_atomic (path : string) (w : world) :
  atomic_run (Integrate.integrate_phase_2_3 path) path Integrate.rules w.
Proof.
  unfold atomic_run. rewrite integrate_run.
  destruct (disk w !! path) as [text|] eqn:Hd; [|nothing_written].
  cbv zeta. destruct (decide (path ∈ readonly w)); [nothing_written|].
  written_once text integrate_rules_wf.
Qed.

Lemma complete_atomic (path : string) (w : world) :
  atomic_run (Complete.integrate_complete path) path Complete.rules w.
Proof.
  unfold atomic_run. rewrite complete_run.
  destruct (disk w !! path) as [text|] eqn:Hd; [|nothing_written].
  cbv zeta. destruct (decide (path ∈ readonly w)); [nothing_written|].
  written_once text complete_rules_wf.
Qed.

Lemma final_atomic (w : world) :
  atomic_run Final.main Final.file_path Final.rules w.
Proof.
  unfold atomic_run. rewrite final_run.
  destruct (disk w !! Final.file_path) as [text|] eqn:Hd; [|nothing_written].
  cbv zeta. destruct (decide (Final.file_path ∈ readonly w)); [nothing_written|].
  destruct (Z.eqb _ 0); written_once text final_rules_wf.
Qed.

(** ** Runs as folds *)

Lemma run_written (s : script) (path : string) (w : world) (text : list N) :
  disk w !! script_path s path = Some text ->
  script_path s path ∉ readonly w ->
  let final := final_buffer (script_rules s) (universal_newlines text) in
  reduce (script_rules s) (universal_newlines text) = Ok final /\
  writes (script_run s path w).2 = writes w ++ [(script_path s path, final)] /\
  disk (script_run s path w).2 = <[script_path s path := final]> (disk w) /\
  readonly (script_run s path w).2 = readonly w.
Proof.
  intros Hd Hro final. subst final. destruct s; cbn [script_run script_path script_rules] in *.
  - split; [apply reduce_total, integrate_rules_wf|].
    rewrite integrate_run, Hd. cbv zeta. destruct (decide _); done.
  - split; [apply reduce_total, complete_rules_wf|].
    rewrite complete_run, Hd. cbv zeta. destruct (decide _); done.
  - split; [apply reduce_total, final_rules_wf|].
    rewrite final_run, Hd. cbv zeta. destruct (decide _); [done|].
    destruct (Z.eqb _ 0); done.
Qed.

(** ** What a run prints *)

Lemma run_printed (s : script) (path : string) (w : world) (text : list N) :
  disk w !! script_path s path = Some text ->
  script_path s path ∉ readonly w ->
  let snapshot := universal_newlines text in
  let final := final_buffer (script_rules s) snapshot in
  let o := line_count s snapshot in
  let n := line_count s final in
  (script_run s path w).1 =
    (if match s with FinalPhase => Z.eqb o 0 | _ => false end
     then Raise ZeroDivisionError else Ok tt) /\
  printed (script_run s path) w =
    match s with
    | IntegratePhase => Integrate.progress ++ Integrate.report o n
    | CompletePhase => Complete.progress o ++ Complete.report o n
    | FinalPhase =>
        Final.progress o ++ (if Z.eqb o 0 then [] else Final.report o n)
    end.
Proof.
  intros Hd Hro. unfold printed.
  destruct s; cbn [script_run script_path script_rules line_count] in *.
  - rewrite integrate_run, Hd. cbv zeta. destruct (decide _); [done|].
    cbn [fst snd console]. by rewrite drop_app_length.
  - rewrite complete_run, Hd. cbv zeta. destruct (decide _); [done|].
    cbn [fst snd console]. by rewrite drop_app_length.
  - rewrite final_run, Hd. cbv zeta. destruct (decide _); [done|].
    destruct (Z.eqb _ 0); cbn [fst snd console]; rewrite drop_app_length;
      by rewrite ?app_nil_r.
Qed.

Lemma run_completes (s : script) (path : string) (w : world) :
  (script_run s path w).1 = Ok tt ->
  exists text,
    disk w !! script_path s path = Some text /\
    script_path s path ∉ readonly w.
Proof.
  destruct s; cbn [script_run script_path].
  - rewrite integrate_run. destruct (disk w !! path) as [text|]; [|done].
    cbv zeta. destruct (decide _); [done|]. eauto.
  - rewrite complete_run. destruct (disk w !! path) as [text|]; [|done].
    cbv zeta. destruct (decide _); [done|]. eauto.
  - rewrite final_run. destruct (disk w !! Final.file_path) as [text|]; [|done].
    cbv zeta. destruct (decide _); [done|]. eauto.
Qed.

(** ** Division by zero *)

Lemma final_rules_on_empty : final_buffer Final.rules [] = [].
Proof. vm_compute. reflexivity. Qed.

(** ** Import insertion *)

Lemma expand_ref_lits (n : nat) (L ins : list N) :
  expand (TRef n :: map TLit ins) (<[n := L]> ∅) = L ++ ins.
Proof.
  unfold expand. cbn [flat_map]. rewrite lookup_insert_eq. cbn [default].
  f_equal. induction ins as [|c ins IH]; simpl; [done|]. by f_equal.
Qed.

Lemma flat_map_gaps_length (gaps : list (list N)) (a : list N) :
  length (flat_map (fun g => g ++ a) gaps) =
  length (concat gaps) + length gaps * length a.
Proof.
  induction gaps as [|g gaps IH]; simpl; [done|].
  rewrite !length_app, IH. lia.
Qed.

(** [str.replace] with a replacement that starts with the landmark, run
    twice: behind every landmark the second insertion comes first. *)
Lemma insert_twice (s old ins1 ins2 : list N) :
  old <> [] -> cross_free old ins1 = true ->
  exists gaps tail,
    length gaps = str_count s old /\
    s = flat_map (fun g => g ++ old) gaps ++ tail /\
    str_replace s old (old ++ ins1) =
      flat_map (fun g => g ++ old ++ ins1) gaps ++ tail /\
    str_replace (str_replace s old (old ++ ins1)) old (old ++ ins2) =
      flat_map (fun g => g ++ old ++ ins2 ++ ins1) gaps ++ tail.
Proof.
  intros Hold Hc.
  destruct (str_replace_gaps s old (old ++ ins1) Hold)
    as (gaps & tail & E1 & E2 & HF & HT & HC).
  exists gaps, tail. split; [done|]. split; [done|].
  assert (E2' : str_replace s old (old ++ ins1) =
                flat_map (fun g => g ++ old ++ ins1) gaps ++ tail).
  { rewrite E2. done. }
  split; [done|]. rewrite E2'.
  rewrite str_replace_after_insert by done.
  f_equal. clear. induction gaps as [|g gaps IH]; simpl; [done|].
  by rewrite IH, <- !app_assoc.
Qed.

Lemma hook_imports_cross_free :
  cross_free Integrate.api_key_rotation_import ([LF] ++ Integrate.hook_imports) = true.
Proof. vm_compute. reflexivity. Qed.

(** ** The shared anchor of final-phase-2-3.py *)

Lemma import_pattern_compiled :
  re_compile Final.import_pattern =
  Ok (RCat (RGroup 1 (lits Final.landmark)) REmpty, 1).
Proof. vm_compute. reflexivity. Qed.

Lemma import_addition_template :
  parse_template Final.import_addition 1 =
  Ok (TRef 1 :: map TLit (flat_map (fun l => LF :: l) Final.hook_import_lines)).
Proof. vm_compute. reflexivity. Qed.

Lemma import_addition_2_template :
  parse_template Final.import_addition_2 1 =
  Ok (TRef 1 :: map TLit (flat_map (fun l => LF :: l) Final.component_import_lines)).
Proof. vm_compute. reflexivity. Qed.

(** With the landmark as its pattern and a template [\1...], [re.sub] is
    [str.replace] of the landmark by itself and the text behind [\1]. *)
Lemma import_sub (repl ins s : list N) (flags : list flag) :
  parse_template repl 1 = Ok (TRef 1 :: map TLit ins) ->
  re_sub Final.import_pattern repl s flags =
  Ok (str_replace s Final.landmark (Final.landmark ++ ins)).
Proof.
  intros Ht.
  rewrite (re_sub_compiled _ _ _ _ _ _ _ import_pattern_compiled Ht).
  f_equal.
  rewrite (sub_from_literal _ Final.landmark (insert 1 Final.landmark));
    [by rewrite expand_ref_lits | apply rmatch_group_lits | done
    | apply sub_measure_fuel].
Qed.

Lemma hook_lines_cross_free :
  cross_free Final.landmark
    (flat_map (fun l => LF :: l) Final.hook_import_lines) = true.
Proof. vm_compute. reflexivity. Qed.

(** ** The display-confirmation rules *)

Lemma integrate_pattern_is_block :
  re_compile Integrate.old_display_logic = Ok (lits captured_block, 0).
Proof. vm_compute. reflexivity. Qed.

Lemma expand_lits (l : list N) (gs : gmap nat (list N)) :
  expand (map TLit l) gs = l.
Proof.
  unfold expand. induction l as [|c l IH]; simpl; [done|]. by f_equal.
Qed.

Lemma new_display_logic_template :
  parse_template Integrate.new_display_logic 0 =
  Ok (map TLit Integrate.new_display_logic).
Proof. vm_compute. reflexivity. Qed.

Lemma str_split_count (s : list N) (sep : N) :
  length (str_split s sep) = S (length (List.filter (N.eqb sep) s)).
Proof.
  induction s as [|c s IH]; simpl; [done|].
  rewrite (N.eqb_sym sep c). destruct (N.eqb c sep); simpl; [by rewrite IH|].
  destruct (str_split s sep); simpl in *; lia.
Qed.

(** The sibling of the two rules that miss: wherever the captured block
    stands (once) in a fixture, the rule of integrate-phase-2-3.py replaces
    exactly the block by the two new lines, and the line count drops by the
    34 lines of the block minus two. *)
Lemma integrate_display_rule_replaces_block (fixture : list N) :
  str_count fixture captured_block = 1 ->
  exists pre post,
    fixture = pre ++ captured_block ++ post /\
    applyRule fixture integrate_display_rule =
      Ok (pre ++ Integrate.new_display_logic ++ post) /\
    (len (str_split fixture LF)
     - len (str_split (pre ++ Integrate.new_display_logic ++ post) LF)
     = 34 - 2)%Z.
Proof.
  intros Hcount.
  destruct (str_replace_gaps fixture captured_block Integrate.new_display_logic)
    as (gaps & tail & E1 & E2 & _ & _ & HC); [done|].
  rewrite Hcount in HC. destruct gaps as [|pre [|? ?]]; [done| |done].
  cbn [flat_map] in *. rewrite app_nil_r, <- app_assoc in E1, E2.
  exists pre, tail. split; [done|]. split.
  - unfold integrate_display_rule. cbn [applyRule].
    rewrite (re_sub_compiled _ _ _ _ _ _ _ integrate_pattern_is_block
               new_display_logic_template).
    rewrite (sub_from_literal _ captured_block id);
      [by rewrite expand_lits, E2 | apply rmatch_lits | done | apply sub_measure_fuel].
  - rewrite E1 at 1. unfold len. rewrite !str_split_count.
    rewrite !List.filter_app, !length_app.
    replace (length (List.filter (N.eqb LF) captured_block)) with 33
      by (vm_compute; reflexivity).
    replace (length (List.filter (N.eqb LF) Integrate.new_display_logic)) with 1
      by (vm_compute; reflexivity).
    lia.
Qed.

(** * The claims *)

(** C1.  Cardinality is never checked.  Whether applying a rule raises
    depends on the rule alone (its pattern and template must compile), not on
    the buffer.  For every buffer and every well-formed rule: when the
    locator matches nowhere, applying the rule returns the buffer as it is;
    and however often it matches, the rule does not raise but replaces every
    match -- the rewritten buffer has as many replaced spans as the locator
    has matches. *)
Theorem applyRule_no_cardinality_check (r : rule) (b : list N) :
  is_ok (applyRule b r) = rule_wf r /\
  (rule_wf r = true ->
   (match_count r b = 0 -> applyRule b r = Ok b) /\
   (exists segs tail,
      length segs = match_count r b /\ Forall (span_of r) segs /\
      b = before segs tail /\ applyRule b r = Ok (after segs tail))).
Proof.
  split; [apply applyRule_is_ok|].
  intros Hwf. destruct (applyRule_total r b Hwf) as [b' Hb'].
  destruct (applyRule_segments r b b' Hb') as (segs & tail & E1 & E2 & HF & HC).
  split.
  - intros H0. rewrite H0 in HC. destruct segs; [|done].
    rewrite Hb', E2, E1. done.
  - exists segs, tail. rewrite Hb', E2. done.
Qed.

Lemma applyRule_no_cardinality_check_witness :
  let r := Replace (str "an") (str "AN") in
  (rule_wf r = true /\ match_count r (str "xyz") = 0 /\
   applyRule (str "xyz") r = Ok (str "xyz")) /\
  (rule_wf r = true /\ match_count r (str "banana") = 2 /\
   exists segs tail,
     length segs = match_count r (str "banana") /\ Forall (span_of r) segs /\
     str "banana" = before segs tail /\
     applyRule (str "banana") r = Ok (after segs tail)).
Proof.
  split.
  - split; [reflexivity|]. split; [reflexivity|].
    apply (proj2 (applyRule_no_cardinality_check
                    (Replace (str "an") (str "AN")) (str "xyz")));
      reflexivity.
  - split; [reflexivity|]. split; [reflexivity|].
    apply (proj2 (applyRule_no_cardinality_check
                    (Replace (str "an") (str "AN")) (str "banana"))).
    reflexivity.
Defined.

(** C2.  The frame of a rule.  Whenever a rule returns a buffer, input and
    output are laid out alike: the same texts outside the matched spans, in
    the same order, and in place of every matched span its replacement.  For
    an anchor-and-insert rule the replacement is the landmark followed by the
    inserted text, so the landmark stays as well. *)
Theorem applyRule_frame (r : rule) (b b' : list N) :
  applyRule b r = Ok b' ->
  exists segs tail,
    b = before segs tail /\ b' = after segs tail /\
    Forall (span_of r) segs /\
    (forall landmark ins, r = Replace landmark (landmark ++ ins) ->
       Forall (fun x => replacement x = matched x ++ ins) segs).
Proof.
  intros H. destruct (applyRule_segments r b b' H) as (segs & tail & E1 & E2 & HF & _).
  exists segs, tail. repeat split; [done..|].
  intros landmark ins ->. eapply Forall_impl; [exact HF|].
  intros x [-> ->]. done.
Qed.

Lemma applyRule_frame_witness :
  (let r := Sub (str "(a+)b") (str "<\1>") [] in
   applyRule (str "xaabyab") r = Ok (str "x<aa>y<a>") /\
   exists segs tail,
     str "xaabyab" = before segs tail /\ str "x<aa>y<a>" = after segs tail /\
     Forall (span_of r) segs) /\
  (let r := Replace (str "ab") (str "ab" ++ str "!") in
   applyRule (str "xabyab") r = Ok (str "xab!yab!") /\
   exists segs tail,
     str "xabyab" = before segs tail /\ str "xab!yab!" = after segs tail /\
     Forall (span_of r) segs /\
     Forall (fun x => replacement x = matched x ++ str "!") segs).
Proof.
  split.
  - split; [reflexivity|].
    destruct (applyRule_frame (Sub (str "(a+)b") (str "<\1>") [])
                (str "xaabyab") (str "x<aa>y<a>") eq_refl)
      as (segs & tail & E1 & E2 & HF & _).
    exists segs, tail. split; [exact E1|]. split; [exact E2 | exact HF].
  - split; [reflexivity|].
    destruct (applyRule_frame (Replace (str "ab") (str "ab" ++ str "!"))
                (str "xabyab") (str "xab!yab!") eq_refl)
      as (segs & tail & E1 & E2 & HF & HI).
    exists segs, tail. split; [exact E1|]. split; [exact E2|].
    split; [exact HF | exact (HI (str "ab") (str "!") eq_refl)].
Defined.

(** C3.  Every run of each script writes the target file at most once, and
    what it writes is the buffer behind the last rule.  A run that raises
    before or at the write (every exception but the division of the summary,
    which comes after the write) has written nothing, and then the disk is
    exactly as it was when the run started. *)
Theorem runs_are_atomic (s : script) (path : string) (w : world) :
  atomic_run (script_run s path) (script_path s path) (script_rules s) w.
Proof.
  destruct s; cbn [script_run script_path script_rules].
  - apply integrate_atomic.
  - apply complete_atomic.
  - apply final_atomic.
Qed.

(** C4, as the code has it.  The import-insertion rule of
    integrate-phase-2-3.py and complete-phase-2-3.py looks for the line that
    imports from "@/hooks/useApiKeyRotation".  One application leaves every
    such line followed by a newline and the three hook imports; a second
    application puts three more behind each of them, six in all, so the rule
    is not idempotent on a fixture that contains the line. *)
Theorem import_rule_applied_twice (fixture : list N) :
  head Integrate.rules = Some hook_import_rule /\
  head Complete.rules = Some hook_import_rule /\
  length (str_split Integrate.hook_imports LF) = 3 /\
  exists gaps tail,
    length gaps = str_count fixture Integrate.api_key_rotation_import /\
    fixture =
      flat_map (fun g => g ++ Integrate.api_key_rotation_import) gaps ++ tail /\
    applyRule fixture hook_import_rule =
      Ok (flat_map (fun g => g ++ Integrate.api_key_rotation_import ++
                             [LF] ++ Integrate.hook_imports) gaps ++ tail) /\
    reduce [hook_import_rule; hook_import_rule] fixture =
      Ok (flat_map (fun g => g ++ Integrate.api_key_rotation_import ++
                             [LF] ++ Integrate.hook_imports ++
                             [LF] ++ Integrate.hook_imports) gaps ++ tail) /\
    (gaps = [] \/
     reduce [hook_import_rule; hook_import_rule] fixture <>
     applyRule fixture hook_import_rule).
Proof.
  split; [reflexivity|]. split; [reflexivity|]. split; [reflexivity|].
  destruct (insert_twice fixture Integrate.api_key_rotation_import
              ([LF] ++ Integrate.hook_imports) ([LF] ++ Integrate.hook_imports))
    as (gaps & tail & HC & E0 & E1 & E2);
    [done | apply hook_imports_cross_free |].
  exists gaps, tail. split; [done|]. split; [done|].
  assert (R1 : applyRule fixture hook_import_rule =
    Ok (flat_map (fun g => g ++ Integrate.api_key_rotation_import ++
                           [LF] ++ Integrate.hook_imports) gaps ++ tail)).
  { unfold hook_import_rule. cbn [applyRule]. by rewrite E1. }
  assert (R2 : reduce [hook_import_rule; hook_import_rule] fixture =
    Ok (flat_map (fun g => g ++ Integrate.api_key_rotation_import ++
                           [LF] ++ Integrate.hook_imports ++
                           [LF] ++ Integrate.hook_imports) gaps ++ tail)).
  { unfold reduce, hook_import_rule. cbn [fold_left rbind applyRule].
    rewrite E2. reflexivity. }
  split; [done|]. split; [done|].
  destruct gaps as [|g gaps]; [by left|]. right.
  rewrite R1, R2. intros H%Ok_inj.
  apply (f_equal length) in H.
  rewrite !length_app, !flat_map_gaps_length, !length_app in H.
  simpl in H. lia.
Qed.

(** C4, as stated, fails: the line the specification quotes imports from
    "lib/useApiKeyRotation", which the rule does not look for, so on that
    fixture the rule finds nothing and inserts nothing. *)
Lemma spec_import_line_unmatched :
  str_count spec_import_line Integrate.api_key_rotation_import = 0 /\
  applyRule spec_import_line hook_import_rule = Ok spec_import_line /\
  applyRule spec_import_line hook_import_rule <>
    Ok (spec_import_line ++ [LF] ++ Integrate.hook_imports).
Proof.
  split; [vm_compute; reflexivity|].
  assert (H : applyRule spec_import_line hook_import_rule = Ok spec_import_line)
    by (vm_compute; reflexivity).
  split; [exact H|]. rewrite H. intros E%Ok_inj.
  apply (f_equal length) in E. rewrite !length_app in E. simpl in E. lia.
Qed.

(** C5.  On the block in its captured shape the three display-confirmation
    rules part ways.  The rule of integrate-phase-2-3.py replaces the block
    by the two new lines, so that 34 lines become 2; the rules of
    complete-phase-2-3.py and final-phase-2-3.py do not match the block and
    return it unchanged. *)
Theorem display_rule_on_captured_block :
  Integrate.rules !! 2 = Some integrate_display_rule /\
  Complete.rules !! 2 = Some complete_display_rule /\
  Final.rules !! 2 = Some final_display_rule /\
  len (str_split captured_block LF) = 34%Z /\
  applyRule captured_block integrate_display_rule = Ok Integrate.new_display_logic /\
  len (str_split Integrate.new_display_logic LF) = 2%Z /\
  applyRule captured_block complete_display_rule = Ok captured_block /\
  applyRule captured_block final_display_rule = Ok captured_block.
Proof. repeat split; vm_compute; reflexivity. Qed.

(** C6, as the code has it.  When a run completes, its summary shows the
    line count of the loaded snapshot and the line count of the final buffer
    (the buffer that is then in the file).  complete-phase-2-3.py and
    final-phase-2-3.py show original minus new and that difference divided by
    the original count, times 100; integrate-phase-2-3.py shows new minus
    original and no percentage. *)
Theorem summary_of_completed_run (s : script) (path : string) (w : world) :
  (script_run s path w).1 = Ok tt ->
  exists text,
    disk w !! script_path s path = Some text /\
    let snapshot := universal_newlines text in
    let final := final_buffer (script_rules s) snapshot in
    disk (script_run s path w).2 !! script_path s path = Some final /\
    (exists pre post,
       printed (script_run s path) w =
         pre ++ summary s (line_count s snapshot) (line_count s final) ++ post) /\
    existsb shows_percentage (printed (script_run s path) w) =
      match s with IntegratePhase => false | _ => true end.
Proof.
  intros Hok. destruct (run_completes s path w Hok) as (text & Hd & Hro).
  exists text. split; [done|]. cbv zeta.
  destruct (run_written s path w text Hd Hro) as (_ & _ & D & _).
  destruct (run_printed s path w text Hd Hro) as [R P].
  rewrite D, lookup_insert_eq. split; [done|].
  rewrite P. rewrite Hok in R. clear P D Hok.
  destruct s; cbn [line_count summary] in *.
  - split; [|reflexivity].
    eexists (Integrate.progress ++ take 1 (Integrate.report 0 0)), (drop 4 (Integrate.report 0 0)).
    reflexivity.
  - split; [|reflexivity].
    eexists (Complete.progress _ ++ take 3 (Complete.report 0 0)), (drop 6 (Complete.report 0 0)).
    reflexivity.
  - destruct (Z.eqb _ 0); [done|]. split; [|reflexivity].
    eexists (Final.progress _ ++ take 1 (Final.report 0 0)), [].
    reflexivity.
Qed.

Lemma summary_of_completed_run_witness :
  let w := one_file "Index.tsx" Integrate.api_key_rotation_import in
  (script_run CompletePhase "Index.tsx" w).1 = Ok tt /\
  exists text,
    disk w !! script_path CompletePhase "Index.tsx" = Some text /\
    let snapshot := universal_newlines text in
    let final := final_buffer (script_rules CompletePhase) snapshot in
    disk (script_run CompletePhase "Index.tsx" w).2
      !! script_path CompletePhase "Index.tsx" = Some final /\
    (exists pre post,
       printed (script_run CompletePhase "Index.tsx") w =
         pre ++ summary CompletePhase (line_count CompletePhase snapshot)
                        (line_count CompletePhase final) ++ post) /\
    existsb shows_percentage
      (printed (script_run CompletePhase "Index.tsx") w) = true.
Proof.
  split; [vm_compute; reflexivity|].
  apply (summary_of_completed_run CompletePhase "Index.tsx"
           (one_file "Index.tsx" Integrate.api_key_rotation_import)).
  vm_compute. reflexivity.
Defined.

(** C6, as stated, fails for integrate-phase-2-3.py: on a file that holds
    the one import line the run completes with 1 original and 4 new lines,
    and its summary shows the change +3, which is new minus original and not
    original minus new, and shows no percentage at all. *)
Lemma summary_counterexample :
  let w := one_file "Index.tsx" Integrate.api_key_rotation_import in
  let run := Integrate.integrate_phase_2_3 "Index.tsx" in
  (run w).1 = Ok tt /\
  printed run w = Integrate.progress ++ Integrate.report 1 4 /\
  Integrate.report 1 4 !! 3 = Some [Text "Change: "; Signed 3; Text " lines"] /\
  (1 - 4)%Z <> 3%Z /\
  existsb shows_percentage (printed run w) = false.
Proof.
  repeat split; try (vm_compute; reflexivity). done.
Qed.

(** C7.  The straight-line sequence of steps is a fold.  When the file is
    there and writable, the buffer a script ends with -- the one it writes --
    is [rules.reduce(applyRule, snapshot)] for the rule list of the script in
    its textual order, every rule taking the output of the one before. *)
Theorem run_is_fold (s : script) (path : string) (w : world) (text : list N) :
  disk w !! script_path s path = Some text ->
  script_path s path ∉ readonly w ->
  exists final,
    reduce (script_rules s) (universal_newlines text) = Ok final /\
    writes (script_run s path w).2 = writes w ++ [(script_path s path, final)] /\
    disk (script_run s path w).2 !! script_path s path = Some final.
Proof.
  intros Hd Hro. destruct (run_written s path w text Hd Hro) as (H1 & H2 & H3 & _).
  eexists. split; [exact H1|]. split; [exact H2|].
  rewrite H3. apply lookup_insert_eq.
Qed.

Lemma run_is_fold_witness :
  let w := one_file "Index.tsx" Integrate.api_key_rotation_import in
  disk w !! script_path CompletePhase "Index.tsx" = Some Integrate.api_key_rotation_import /\
  (script_path CompletePhase "Index.tsx" ∉ readonly w) /\
  exists final,
    reduce (script_rules CompletePhase)
           (universal_newlines Integrate.api_key_rotation_import) = Ok final /\
    writes (script_run CompletePhase "Index.tsx" w).2 =
      writes w ++ [(script_path CompletePhase "Index.tsx", final)] /\
    disk (script_run CompletePhase "Index.tsx" w).2
      !! script_path CompletePhase "Index.tsx" = Some final.
Proof.
  split; [reflexivity|]. split; [apply not_elem_of_empty|].
  apply (run_is_fold CompletePhase "Index.tsx"
           (one_file "Index.tsx" Integrate.api_key_rotation_import)
           Integrate.api_key_rotation_import);
    [reflexivity | apply not_elem_of_empty].
Defined.

(** C8.  A run is a function of the text it loads.  Two runs of the same
    script on files with the same content -- in whatever worlds: other files,
    earlier console output, earlier writes, even another path -- end alike,
    leave the same content in the file and print the same lines, line counts
    included. *)
Theorem runs_are_deterministic (s : script) (path1 path2 : string)
    (w1 w2 : world) (text : list N) :
  disk w1 !! script_path s path1 = Some text ->
  disk w2 !! script_path s path2 = Some text ->
  script_path s path1 ∉ readonly w1 ->
  script_path s path2 ∉ readonly w2 ->
  (script_run s path1 w1).1 = (script_run s path2 w2).1 /\
  disk (script_run s path1 w1).2 !! script_path s path1 =
    disk (script_run s path2 w2).2 !! script_path s path2 /\
  printed (script_run s path1) w1 = printed (script_run s path2) w2.
Proof.
  intros Hd1 Hd2 Hro1 Hro2.
  destruct (run_written s path1 w1 text Hd1 Hro1) as (_ & _ & D1 & _).
  destruct (run_written s path2 w2 text Hd2 Hro2) as (_ & _ & D2 & _).
  destruct (run_printed s path1 w1 text Hd1 Hro1) as [R1 P1].
  destruct (run_printed s path2 w2 text Hd2 Hro2) as [R2 P2].
  rewrite R1, R2, P1, P2, D1, D2, !lookup_insert_eq. done.
Qed.

Lemma runs_are_deterministic_witness :
  let text := Final.landmark in
  let w1 := one_file Final.file_path text in
  let w2 := World {[ Final.file_path := text; "other.txt" := str "x" ]} ∅
                  [[Text "earlier output"]] [] in
  disk w1 !! script_path FinalPhase "a" = Some text /\
  disk w2 !! script_path FinalPhase "b" = Some text /\
  (script_path FinalPhase "a" ∉ readonly w1) /\
  (script_path FinalPhase "b" ∉ readonly w2) /\
  (script_run FinalPhase "a" w1).1 = (script_run FinalPhase "b" w2).1 /\
  disk (script_run FinalPhase "a" w1).2 !! script_path FinalPhase "a" =
    disk (script_run FinalPhase "b" w2).2 !! script_path FinalPhase "b" /\
  printed (script_run FinalPhase "a") w1 = printed (script_run FinalPhase "b") w2.
Proof.
  split; [reflexivity|]. split; [reflexivity|].
  split; [apply not_elem_of_empty|]. split; [apply not_elem_of_empty|].
  apply (runs_are_deterministic FinalPhase "a" "b"
           (one_file Final.file_path Final.landmark)
           (World {[ Final.file_path := Final.landmark; "other.txt" := str "x" ]} ∅
                  [[Text "earlier output"]] [])
           Final.landmark);
    [reflexivity | reflexivity | apply not_elem_of_empty | apply not_elem_of_empty].
Defined.

(** C9.  Steps 1 and 2 of final-phase-2-3.py anchor on the same landmark.  On
    a buffer that contains the landmark once, the two steps leave the
    landmark followed at once by the six component imports of step 2, and
    these by the three hook imports of step 1: at a shared anchor the
    insertions end up in the reverse of the rule order. *)
Theorem imports_at_shared_anchor (content : list N) :
  str_count content Final.landmark = 1 ->
  take 2 Final.rules =
    [Sub Final.import_pattern Final.import_addition [];
     Sub Final.import_pattern Final.import_addition_2 []] /\
  exists pre post,
    content = pre ++ Final.landmark ++ post /\
    reduce (take 2 Final.rules) content =
      Ok (pre ++ Final.landmark
              ++ flat_map (fun l => LF :: l) Final.component_import_lines
              ++ flat_map (fun l => LF :: l) Final.hook_import_lines
              ++ post).
Proof.
  intros Hcount. split; [reflexivity|].
  destruct (insert_twice content Final.landmark
              (flat_map (fun l => LF :: l) Final.hook_import_lines)
              (flat_map (fun l => LF :: l) Final.component_import_lines))
    as (gaps & tail & HC & E0 & E1 & E2); [done | apply hook_lines_cross_free |].
  rewrite Hcount in HC.
  destruct gaps as [|pre [|? ?]]; [done| |done].
  exists pre, tail. cbn [flat_map] in *. rewrite app_nil_r in *.
  split; [by rewrite E0, <- app_assoc|].
  unfold reduce. cbn [take Final.rules fold_left rbind applyRule].
  rewrite (import_sub _ _ _ _ import_addition_template). cbn [rbind].
  rewrite (import_sub _ _ _ _ import_addition_2_template).
  rewrite E2. by rewrite <- !app_assoc.
Qed.

Lemma imports_at_shared_anchor_witness :
  let content := str "// top
" ++ Final.landmark ++ str "
const x = 1;" in
  str_count content Final.landmark = 1 /\
  take 2 Final.rules =
    [Sub Final.import_pattern Final.import_addition [];
     Sub Final.import_pattern Final.import_addition_2 []] /\
  exists pre post,
    content = pre ++ Final.landmark ++ post /\
    reduce (take 2 Final.rules) content =
      Ok (pre ++ Final.landmark
              ++ flat_map (fun l => LF :: l) Final.component_import_lines
              ++ flat_map (fun l => LF :: l) Final.hook_import_lines
              ++ post).
Proof.
  split; [vm_compute; reflexivity|].
  apply (imports_at_shared_anchor (str "// top
" ++ Final.landmark ++ str "
const x = 1;")).
  vm_compute. reflexivity.
Defined.

(** C10.  When the content that final-phase-2-3.py loads is empty,
    [splitlines] gives no line, the file is written (empty again), and then
    the percentage raises ZeroDivisionError.  [split] on the newline always
    gives at least one piece, and the other two scripts never raise
    ZeroDivisionError. *)
Theorem zero_division_in_final_only (w : world) (text : list N) :
  disk w !! Final.file_path = Some text ->
  universal_newlines text = [] ->
  Final.file_path ∉ readonly w ->
  (splitlines (universal_newlines text) = [] /\
   (Final.main w).1 = Raise ZeroDivisionError /\
   writes (Final.main w).2 = writes w ++ [(Final.file_path, [])]) /\
  (forall b : list N, 1 <= length (str_split b LF)) /\
  (forall path w',
     (Integrate.integrate_phase_2_3 path w').1 <> Raise ZeroDivisionError /\
     (Complete.integrate_complete path w').1 <> Raise ZeroDivisionError).
Proof.
  intros Hd He Hro. split; [|split].
  - rewrite final_run, Hd, He. cbv zeta.
    destruct (decide _); [done|]. rewrite final_rules_on_empty. done.
  - intros b. apply str_split_length.
  - intros path w'. rewrite integrate_run, complete_run.
    destruct (disk w' !! path); [|done]. cbv zeta.
    destruct (decide _); done.
Qed.

Lemma zero_division_in_final_only_witness :
  let w := one_file Final.file_path [] in
  disk w !! Final.file_path = Some [] /\
  universal_newlines [] = [] /\
  (Final.file_path ∉ readonly w) /\
  (splitlines (universal_newlines []) = [] /\
   (Final.main w).1 = Raise ZeroDivisionError /\
   writes (Final.main w).2 = writes w ++ [(Final.file_path, [])]) /\
  (forall b : list N, 1 <= length (str_split b LF)) /\
  (forall path w',
     (Integrate.integrate_phase_2_3 path w').1 <> Raise ZeroDivisionError /\
     (Complete.integrate_complete path w').1 <> Raise ZeroDivisionError).
Proof.
  split; [reflexivity|]. split; [reflexivity|]. split; [apply not_elem_of_empty|].
  apply (zero_division_in_final_only (one_file Final.file_path []) []);
    [reflexivity | reflexivity | apply not_elem_of_empty].
Defined.

(** * Further properties *)

(** ** Newlines *)

Lemma universal_newlines_nil (s : list N) : universal_newlines s = [] -> s = [].
Proof. destruct s as [|c s]; [done|]. simpl. by destruct (N.eqb c CR). Qed.

Lemma splitlines_from_nil (cur s : list N) :
  splitlines_from cur s = [] -> cur = [] /\ s = [].
Proof.
  revert cur. induction s as [|c s IH]; intros cur; simpl.
  - by destruct cur.
  - destruct (is_linebreak c); [done|]. intros H%IH. destruct H as [H _].
    by destruct cur.
Qed.

(** What text mode hands to the script holds no carriage return. *)
Lemma universal_newlines_no_CR (s : list N) :
  Forall (fun c => c <> CR) (universal_newlines s).
Proof.
  remember (length s) as n eqn:Hn. revert s Hn.
  induction n as [n IH] using lt_wf_ind. intros [|c s] ->; simpl; [constructor|].
  destruct (N.eqb_spec c CR) as [->|Hc].
  - constructor; [done|]. destruct s as [|c' s]; [constructor|].
    destruct (N.eqb c' LF); (eapply IH; [|reflexivity]); simpl; lia.
  - constructor; [done|]. eapply IH; [|reflexivity]. simpl; lia.
Qed.

Lemma universal_newlines_id (s : list N) :
  Forall (fun c => c <> CR) s -> universal_newlines s = s.
Proof.
  induction 1 as [|c s Hc _ IH]; simpl; [done|].
  destruct (N.eqb_spec c CR); [done|]. by rewrite IH.
Qed.

Lemma universal_newlines_fixed (s : list N) :
  universal_newlines s = s <-> Forall (fun c => c <> CR) s.
Proof.
  split; [|apply universal_newlines_id].
  intros <-. apply universal_newlines_no_CR.
Qed.

Lemma no_CR_not_elem (s : list N) : Forall (fun c => c <> CR) s <-> CR ∉ s.
Proof.
  rewrite Forall_forall. split.
  - intros H Hin. by apply (H CR).
  - intros H c Hc ->. done.
Qed.

(** The lines of a text do not depend on how its line ends are spelled. *)
Lemma splitlines_from_universal (cur s : list N) :
  splitlines_from cur (universal_newlines s) = splitlines_from cur s.
Proof.
  remember (length s) as n eqn:Hn. revert cur s Hn.
  induction n as [n IH] using lt_wf_ind. intros cur [|c s] ->; [done|].
  cbn [universal_newlines]. destruct (N.eqb_spec c CR) as [->|Hc].
  - cbn [splitlines_from]. change (is_linebreak LF) with true.
    change (is_linebreak CR) with true. cbn match. f_equal.
    destruct s as [|c' s]; [done|].
    change (N.eqb LF CR) with false. change (N.eqb CR CR) with true.
    cbn [andb].
    destruct (N.eqb c' LF).
    + destruct (universal_newlines s) eqn:E.
      * rewrite <- (IH (length s)) with (s := s) (cur := []);
          [by rewrite E | simpl; lia | done].
      * rewrite <- E. apply (IH (length s)); [simpl; lia | done].
    + destruct (universal_newlines (c' :: s)) eqn:E.
      * rewrite <- (IH (length (c' :: s))) with (s := c' :: s) (cur := []);
          [by rewrite E | simpl; lia | done].
      * rewrite <- E. apply (IH (length (c' :: s))); [simpl; lia | done].
  - cbn [splitlines_from]. destruct (is_linebreak c).
    + f_equal. apply N.eqb_neq in Hc. rewrite Hc. cbn [andb].
      transitivity (splitlines_from [] (universal_newlines s)).
      { by destruct (universal_newlines s). }
      transitivity (splitlines_from [] s).
      { apply (IH (length s)); [simpl; lia | done]. }
      by destruct s.
    + apply (IH (length s)); [simpl; lia | done].
Qed.

(** ** Line counts *)

Lemma filter_flat_map_gaps (f : N -> bool) (gaps : list (list N)) (a : list N) :
  length (List.filter f (flat_map (fun g => g ++ a) gaps)) =
  length (List.filter f (concat gaps)) + length gaps * length (List.filter f a).
Proof.
  induction gaps as [|g gaps IH]; simpl; [done|].
  rewrite !List.filter_app, !length_app, IH. lia.
Qed.

Lemma str_replace_line_delta (s old new : list N) :
  old <> [] ->
  (len (str_split (str_replace s old new) LF) - len (str_split s LF) =
   Z.of_nat (str_count s old) *
   (len (str_split new LF) - len (str_split old LF)))%Z.
Proof.
  intros Hold.
  destruct (str_replace_gaps s old new Hold) as (gaps & tail & E1 & E2 & _ & _ & HC).
  rewrite E2, HC, E1. unfold len.
  rewrite !str_split_count, !List.filter_app, !length_app, !filter_flat_map_gaps.
  lia.
Qed.

(** [splitlines] against [split] on a text whose only line boundary is the
    newline: [split] counts one piece more when no line is left open. *)
Lemma splitlines_from_length (cur s : list N) :
  Forall (fun c => is_linebreak c = true -> c = LF) s ->
  length (splitlines_from cur s) +
    (if match last s with
        | Some c => N.eqb c LF
        | None => match cur with [] => true | _ :: _ => false end
        end then 1 else 0) =
  length (str_split s LF).
Proof.
  intros HF. revert cur. induction HF as [|c s Hc HF IH]; intros cur.
  - destruct cur; done.
  - cbn [splitlines_from str_split].
    assert (Hlast : last (c :: s) =
                    match s with [] => Some c | _ :: _ => last s end)
      by (by destruct s).
    rewrite Hlast.
    destruct (is_linebreak c) eqn:Hlb.
    + rewrite (Hc eq_refl). cbn [N.eqb LF CR Pos.eqb andb length].
      specialize (IH []). destruct s as [|c' s]; [done|].
      cbn [length] in *.
      destruct (last (c' :: s)) eqn:El; [lia | by apply last_None in El].
    + assert (N.eqb c LF = false) as Hne.
      { destruct (N.eqb_spec c LF) as [->|]; [done|done]. }
      rewrite Hne. specialize (IH (cur ++ [c])).
      destruct s as [|c' s].
      * simpl in *. destruct (cur ++ [c]) eqn:E; [by destruct cur|].
        simpl. rewrite Hne. lia.
      * assert (match cur ++ [c] with [] => true | _ :: _ => false end = false)
          by (by destruct cur).
        destruct (last (c' :: s)) eqn:El; [|by apply last_None in El].
        destruct (str_split (c' :: s) LF) eqn:E.
        { pose proof (str_split_length (c' :: s) LF) as Hl. rewrite E in Hl.
          simpl in Hl. lia. }
        cbn [length] in *. lia.
Qed.

(** ** Insertions *)

(** A replacement that contains what it replaces only adds text. *)
Lemma str_replace_insertion (s old p q : list N) :
  s `sublist_of` str_replace s old (p ++ old ++ q).
Proof.
  destruct old as [|o old].
  - unfold str_replace. apply sublist_inserts_l.
    induction s as [|c s IH]; simpl; [done|].
    apply sublist_skip, sublist_inserts_l, IH.
  - destruct (str_replace_gaps s (o :: old) (p ++ (o :: old) ++ q))
      as (gaps & tail & E1 & E2 & _); [done|].
    rewrite E2, E1. apply sublist_app; [|done]. clear.
    induction gaps as [|g gaps IH]; cbn [flat_map]; [done|].
    apply sublist_app; [|done]. apply sublist_app; [done|].
    by apply sublist_inserts_l, sublist_inserts_r.
Qed.

Lemma call_site_compiled : re_compile call_site = Ok (lits call_site, 0).
Proof. vm_compute. reflexivity. Qed.

Lemma rename_template :
  parse_template (str "displayConfirmation.handleDisplayConfirmationNeeded,") 0 =
  Ok (map TLit (hook_prefix ++ call_site)).
Proof. vm_compute. reflexivity. Qed.

Lemma final_rename_is_replace (b : list N) :
  applyRule b final_rename_rule = applyRule b rename_rule.
Proof.
  unfold final_rename_rule, rename_rule. cbn [applyRule].
  rewrite (re_sub_compiled _ _ _ _ _ _ _ call_site_compiled rename_template).
  f_equal.
  rewrite (sub_from_literal _ call_site id);
    [by rewrite expand_lits | apply rmatch_lits | done | apply sub_measure_fuel].
Qed.

Lemma integrate_display_is_replace (b : list N) :
  applyRule b integrate_display_rule =
  applyRule b (Replace captured_block Integrate.new_display_logic).
Proof.
  unfold integrate_display_rule. cbn [applyRule].
  rewrite (re_sub_compiled _ _ _ _ _ _ _ integrate_pattern_is_block
             new_display_logic_template).
  f_equal.
  rewrite (sub_from_literal _ captured_block id);
    [by rewrite expand_lits | apply rmatch_lits | done | apply sub_measure_fuel].
Qed.

(** ** Replacements that feed later replacements *)

Lemma startswith_app_cancel (u x v : list N) :
  startswith (u ++ x) (u ++ v) = startswith x v.
Proof. induction u as [|c u IH]; simpl; [done|]. by rewrite N.eqb_refl. Qed.

Lemma find_app_None (a b old : list N) :
  find (a ++ b) old = None -> find a old = None /\ find b old = None.
Proof.
  intros F. split.
  - destruct (find a old) as [i|] eqn:Fa; [|done].
    pose proof (find_Some_le _ _ _ Fa) as Hle.
    apply find_Some in Fa as [_ Fa]. apply startswith_prefix in Fa as [rest Fa].
    pose proof (find_None _ _ i F) as Hn.
    rewrite drop_app_le, Fa, <- app_assoc, startswith_app in Hn by done. done.
  - destruct (find b old) as [i|] eqn:Fb; [|done].
    apply find_Some in Fb as [_ Fb].
    pose proof (find_None _ _ (length a + i) F) as Hn.
    rewrite drop_app_ge in Hn by lia.
    replace (length a + i - length a) with i in Hn by lia. congruence.
Qed.

Lemma find_flat_map_None (f : list N -> list N) (gaps : list (list N))
    (tail old : list N) :
  find (flat_map f gaps ++ tail) old = None ->
  Forall (fun g => find (f g) old = None) gaps /\ find tail old = None.
Proof.
  induction gaps as [|g gaps IH]; simpl.
  - intros H. split; [constructor | done].
  - rewrite <- app_assoc. intros [H1 H2]%find_app_None.
    apply IH in H2 as [H2 H3]. split; [by constructor | done].
Qed.

(** A gap in front of [old] stays one when [P] is put between the gap and
    [old], provided [old] cannot start in front of [P ++ old] and run into
    it. *)
Lemma gap_before_prefixed (old P g : list N) :
  gap_before old g -> gap_before old P ->
  overlap_free old (P ++ old) = true ->
  gap_before old (g ++ P).
Proof.
  intros Hg HP Hov. unfold gap_before. apply find_intro.
  - rewrite drop_app_length. apply startswith_prefix. exists []. by rewrite app_nil_r.
  - intros j Hj. rewrite length_app in Hj. destruct (decide (j < length g)) as [Hlt|Hge].
    + rewrite <- app_assoc, drop_app_le by lia.
      destruct (startswith (drop j g ++ P ++ old) old) eqn:E; [|done]. exfalso.
      pose proof (find_first _ _ _ _ Hg Hlt) as Hfirst.
      rewrite drop_app_le in Hfirst by lia.
      assert (Hu : 0 < length (drop j g)) by (rewrite length_drop; lia).
      destruct (startswith_app_compat _ _ _ E) as [E1|E1].
      * rewrite startswith_app_l in Hfirst by (by apply startswith_length).
        congruence.
      * apply startswith_prefix in E1 as [v Hv].
        destruct v as [|x v].
        { rewrite app_nil_r in Hv. rewrite Hv, startswith_app in Hfirst. done. }
        assert (Hd : drop (length (drop j g)) old = x :: v)
          by (rewrite Hv; apply drop_app_length).
        assert (E' : startswith (P ++ old) (x :: v) = true).
        { rewrite <- (startswith_app_cancel (drop j g)), <- Hv. exact E. }
        assert (Hin : In (length (drop j g)) (seq 1 (length old - 1))).
        { apply in_seq. apply (f_equal length) in Hv.
          rewrite length_app in Hv. simpl in Hv. lia. }
        unfold overlap_free in Hov. rewrite forallb_forall in Hov.
        specialize (Hov _ Hin). rewrite Hd, E' in Hov. done.
    + rewrite <- app_assoc, drop_app_ge by lia.
      apply (find_first _ _ _ _ HP). lia.
  - rewrite !length_app. lia.
Qed.

(** A gap followed by [H] is a gap in front of [T] when [T] does not occur in
    it, [H] does not occur in [T], and [T] cannot start inside [H] and run
    into a [T] that follows. *)
Lemma gap_before_behind (H T g : list N) :
  find (g ++ H) T = None -> find T H = None ->
  straddle_free H T = true ->
  gap_before T (g ++ H).
Proof.
  intros Hno HT Hst. unfold gap_before. apply find_intro.
  - rewrite drop_app_length. apply startswith_prefix. exists []. by rewrite app_nil_r.
  - intros j Hj. rewrite length_app in Hj. destruct (decide (j < length g)) as [Hlt|Hge].
    + rewrite drop_app_le by (rewrite length_app; lia).
      destruct (startswith (drop j (g ++ H) ++ T) T) eqn:E; [|done]. exfalso.
      pose proof (find_None _ _ j Hno) as Hn.
      destruct (startswith_app_compat _ _ _ E) as [E1|E1]; [congruence|].
      apply startswith_prefix in E1 as [v Hv].
      rewrite drop_app_le in Hv by lia.
      pose proof (find_None _ _ (length (drop j g)) HT) as Hn2.
      rewrite Hv, <- app_assoc, drop_app_length, startswith_app in Hn2. done.
    + rewrite <- app_assoc, drop_app_ge by lia.
      unfold straddle_free in Hst. rewrite forallb_forall in Hst.
      specialize (Hst (j - length g)). rewrite drop_app_le by lia.
      apply negb_true_iff, Hst, in_seq. lia.
  - rewrite !length_app. lia.
Qed.

(** [str.replace] of [T] in a text where every [T] stands behind an [H]. *)
Lemma str_replace_behind_landmark (gaps : list (list N)) (tail H T new : list N) :
  T <> [] ->
  Forall (fun g => gap_before T (g ++ H)) gaps ->
  find tail T = None ->
  str_replace (flat_map (fun g => g ++ H ++ T) gaps ++ tail) T new =
  flat_map (fun g => g ++ H ++ new) gaps ++ tail.
Proof.
  intros HT HF Htail. induction HF as [|g gaps Hg HF IH]; simpl.
  - rewrite str_replace_unfold, Htail by done. done.
  - rewrite str_replace_unfold by done. rewrite <- !app_assoc.
    rewrite (app_assoc g H).
    rewrite (gap_before_find _ _ _ Hg).
    rewrite take_app_length.
    rewrite (app_assoc (g ++ H) T), <- (length_app (g ++ H)), drop_app_length.
    rewrite IH. by rewrite <- !app_assoc.
Qed.

Lemma str_count_zero (s old : list N) :
  old <> [] -> str_count s old = 0 -> find s old = None.
Proof.
  intros Hold. rewrite str_count_unfold by done. by destruct (find s old).
Qed.

Lemma str_count_behind_insert (old ins s : list N) :
  old <> [] -> cross_free old ins = true ->
  str_count (ins ++ s) old = str_count s old.
Proof.
  intros Hold Hc. rewrite (str_count_unfold (ins ++ s)) by done.
  rewrite find_behind_insert by done.
  rewrite (str_count_unfold s) by done.
  destruct (find s old) as [i|]; simpl; [|done].
  rewrite drop_app_ge by lia.
  replace (length ins + i + length old - length ins) with (i + length old) by lia.
  done.
Qed.

(** Text put behind the occurrences brings no new occurrence. *)
Lemma str_count_after_insert (gaps : list (list N)) (tail old ins : list N) :
  old <> [] ->
  Forall (gap_before old) gaps ->
  find tail old = None ->
  cross_free old ins = true ->
  str_count (flat_map (fun g => g ++ old ++ ins) gaps ++ tail) old = length gaps.
Proof.
  intros Hold HF HT Hc. induction HF as [|g gaps Hg HF IH]; simpl.
  - rewrite str_count_unfold, HT by done. done.
  - rewrite str_count_unfold by done. rewrite <- !app_assoc.
    rewrite (gap_before_find _ _ _ Hg).
    rewrite (app_assoc g old), <- length_app, drop_app_length.
    rewrite str_count_behind_insert, IH by done. done.
Qed.

Lemma rename_overlap_free :
  overlap_free call_site (hook_prefix ++ call_site) = true.
Proof. vm_compute. reflexivity. Qed.

Lemma hook_prefix_gap : gap_before call_site hook_prefix.
Proof. vm_compute. reflexivity. Qed.

Lemma storage_not_in_hook :
  find Final.storage_sync_addition display_hook = None.
Proof. vm_compute. reflexivity. Qed.

Lemma hook_storage_straddle_free :
  straddle_free display_hook Final.storage_sync_addition = true.
Proof. vm_compute. reflexivity. Qed.

(** ** Where the text of a buffer comes from *)

Section RepeatWithin.
Variable body : list N -> gmap nat (list N) ->
  (list N -> gmap nat (list N) -> option (list N * gmap nat (list N))) ->
  option (list N * gmap nat (list N)).
Variable subject : list N.
Hypothesis body_within : forall s gs k res,
  body s gs k = Some res -> s ⊆ subject -> within subject gs ->
  exists s1 gs1, k s1 gs1 = Some res /\ s1 ⊆ subject /\ within subject gs1.

Lemma repeat_loop_within greedy mn k fuel count s gs res :
  repeat_loop body greedy mn k fuel count s gs = Some res ->
  s ⊆ subject -> within subject gs ->
  exists s1 gs1, k s1 gs1 = Some res /\ s1 ⊆ subject /\ within subject gs1.
Proof.
  revert count s gs. induction fuel as [|fuel IH]; intros count s gs; [done|].
  cbn [repeat_loop]. intros H Hs Hgs.
  set (again := body s gs _) in H.
  assert (Hleave : (if mn <=? count then k s gs else None) = Some res ->
    exists s1 gs1, k s1 gs1 = Some res /\ s1 ⊆ subject /\ within subject gs1).
  { destruct (mn <=? count); [|done]. eauto. }
  assert (Hagain : again = Some res ->
    exists s1 gs1, k s1 gs1 = Some res /\ s1 ⊆ subject /\ within subject gs1).
  { unfold again. intros Hb.
    apply body_within in Hb as (s1 & gs1 & Hb & Hs1 & Hgs1); [|done..].
    destruct (length s1 <? length s); [|eauto]. by eapply IH. }
  destruct greedy.
  - destruct again; [injection H as <-; by apply Hagain|]. by apply Hleave.
  - destruct (if mn <=? count then k s gs else None);
      [injection H as <-; by apply Hleave|]. by apply Hagain.
Qed.
End RepeatWithin.

(** The matcher only ever records text of the subject in a group. *)
Lemma rmatch_within (subject : list N) (r : regex) s gs k res :
  rmatch r s gs k = Some res -> s ⊆ subject -> within subject gs ->
  exists s1 gs1, k s1 gs1 = Some res /\ s1 ⊆ subject /\ within subject gs1.
Proof.
  revert s gs k res.
  induction r as [c|negate items| |r1 IH1 r2 IH2|greedy mn r1 IH|n r1 IH];
    intros s gs k res; cbn [rmatch]; intros H Hs Hgs.
  - destruct s as [|x s]; [done|]. destruct (N.eqb x c); [|done].
    exists s, gs. split; [done|]. split; [|done]. set_solver.
  - destruct s as [|x s]; [done|]. destruct (in_set negate items x); [|done].
    exists s, gs. split; [done|]. split; [|done]. set_solver.
  - eauto.
  - apply IH1 in H as (s1 & gs1 & H & Hs1 & Hgs1); [|done..].
    by apply IH2 in H.
  - by apply (repeat_loop_within _ subject IH) in H.
  - apply IH in H as (s1 & gs1 & H & Hs1 & Hgs1); [|done..].
    exists s1. eexists. split; [exact H|]. split; [done|].
    intros m v. destruct (decide (m = n)) as [->|Hne].
    + rewrite lookup_insert_eq. intros [= <-]. intros c Hc.
      apply Hs. by eapply subseteq_take.
    + rewrite lookup_insert_ne by done. apply Hgs1.
Qed.

Lemma within_empty (subject : list N) : within subject ∅.
Proof. intros n v. by rewrite lookup_empty. Qed.

Lemma match_at_within (r : regex) must_advance s rest gs :
  match_at r must_advance s = Some (rest, gs) -> within s gs.
Proof.
  unfold match_at. intros H.
  apply (rmatch_within s) in H as (s1 & gs1 & H & _ & Hgs1);
    [|done|apply within_empty].
  destruct (_ && _); [done|]. by injection H as <- <-.
Qed.

(** Whatever the groups of the leftmost match hold was read off the
    subject. *)
Lemma search_within (r : regex) must_advance s i rest gs :
  search r must_advance s = Some (i, rest, gs) -> within s gs.
Proof.
  revert must_advance i. induction s as [|c s IH]; intros ma i; cbn [search].
  - destruct (match_at r ma []) as [[rest' gs']|] eqn:M; [|done].
    intros [= <- <- <-]. by eapply match_at_within.
  - destruct (match_at r ma (c :: s)) as [[rest' gs']|] eqn:M.
    + intros [= <- <- <-]. by eapply match_at_within.
    + destruct (search r false s) as [[[j rest'] gs']|] eqn:Se; [|done].
      intros [= <- <- <-]. apply IH in Se. intros n v Hv x Hx.
      apply elem_of_cons. right. by eapply Se.
Qed.

Lemma expand_alphabet (t : list titem) (gs : gmap nat (list N))
    (subject : list N) c :
  within subject gs -> c ∈ expand t gs -> c ∈ subject \/ c ∈ template_text t.
Proof.
  intros Hgs. unfold expand, template_text.
  induction t as [|[x|n] t IH]; cbn [flat_map].
  - by intros ?%elem_of_nil.
  - rewrite !elem_of_app. intros [H|H]; [by right; left|].
    destruct (IH H); [by left | by right; right].
  - rewrite elem_of_app. simpl. intros [H|H]; [|by apply IH].
    destruct (gs !! n) as [v|] eqn:E; simpl in H; [|by apply elem_of_nil in H].
    left. by eapply Hgs.
Qed.

Lemma sub_from_alphabet (r : regex) (t : list titem) fuel must_advance s c :
  c ∈ sub_from fuel r t must_advance s -> c ∈ s \/ c ∈ template_text t.
Proof.
  revert must_advance s. induction fuel as [|fuel IH]; intros ma s; [by left|].
  cbn [sub_from].
  destruct (search r ma s) as [[[i rest] gs]|] eqn:Se; [|by left].
  pose proof (search_within _ _ _ _ _ _ Se) as Hgs.
  apply search_sound in Se as (w & E & _).
  rewrite !elem_of_app. intros [H|[H|H]].
  - left. by eapply subseteq_take.
  - by eapply expand_alphabet.
  - apply IH in H as [H|H]; [|by right]. left. rewrite E.
    rewrite !elem_of_app. by right; right.
Qed.

Lemma applyRule_alphabet (r : rule) (b b' : list N) (c : N) :
  applyRule b r = Ok b' -> c ∈ b' -> c ∈ b \/ c ∈ rule_text r.
Proof.
  destruct r as [old new|pattern repl flags]; simpl.
  - intros [= <-]. destruct old as [|o old].
    + unfold str_replace. rewrite elem_of_app. intros [H|H]; [by right|].
      apply list_elem_of_In, in_flat_map in H as (x & Hx & H).
      apply list_elem_of_In, elem_of_cons in H as [->|H];
        [left; by apply list_elem_of_In | by right].
    + destruct (str_replace_gaps b (o :: old) new) as (gaps & tail & E1 & E2 & _);
        [done|].
      rewrite E2, E1. rewrite !elem_of_app. intros [H|H]; [|by left; right].
      apply list_elem_of_In, in_flat_map in H as (g & Hg & H).
      apply list_elem_of_In, elem_of_app in H as [H|H]; [|by right].
      left. left. apply list_elem_of_In, in_flat_map. exists g. split; [done|].
      apply list_elem_of_In, elem_of_app. by left.
  - unfold re_sub. destruct (re_compile pattern) as [[rx g]|]; [|done].
    simpl. destruct (parse_template repl g) as [t|]; [|done].
    simpl. intros [= <-]. apply sub_from_alphabet.
Qed.

Lemma reduce_alphabet_rules (rules : list rule) (b b' : list N) (c : N) :
  reduce rules b = Ok b' -> c ∈ b' ->
  c ∈ b \/ exists r, r ∈ rules /\ c ∈ rule_text r.
Proof.
  revert b. induction rules as [|r rules IH]; intros b.
  - intros [= <-]. by left.
  - rewrite reduce_cons. destruct (applyRule b r) as [b1|] eqn:E; [|done].
    simpl. intros H Hc. destruct (IH _ H Hc) as [H1|(r' & Hr' & H1)].
    + destruct (applyRule_alphabet _ _ _ _ E H1) as [H2|H2]; [by left|].
      right. exists r. split; [by left | done].
    + right. exists r'. split; [by right | done].
Qed.

Lemma script_rules_wf (s : script) : forallb rule_wf (script_rules s) = true.
Proof.
  destruct s; [apply integrate_rules_wf | apply complete_rules_wf | apply final_rules_wf].
Qed.

Lemma script_rules_no_CR (s : script) :
  forallb (fun r => forallb (fun c => negb (N.eqb c CR)) (rule_text r))
    (script_rules s) = true.
Proof. destruct s; vm_compute; reflexivity. Qed.

(** No script puts a carriage return into the buffer. *)
Lemma final_buffer_no_CR (s : script) (text : list N) :
  Forall (fun c => c <> CR)
    (final_buffer (script_rules s) (universal_newlines text)).
Proof.
  apply Forall_forall. intros c Hc ->.
  pose proof (reduce_total _ (universal_newlines text) (script_rules_wf s)) as HR.
  destruct (reduce_alphabet_rules _ _ _ _ HR Hc) as [H|(r & Hr & H)].
  - pose proof (universal_newlines_no_CR text) as HF.
    rewrite Forall_forall in HF. by apply (HF CR).
  - pose proof (script_rules_no_CR s) as HF. rewrite forallb_forall in HF.
    apply list_elem_of_In in Hr. specialize (HF r Hr).
    rewrite forallb_forall in HF. apply list_elem_of_In in H.
    specialize (HF CR H). done.
Qed.

(** ** Rules that match nothing *)

Lemma applyRule_no_match (r : rule) (b : list N) :
  rule_wf r = true -> match_count r b = 0 -> applyRule b r = Ok b.
Proof.
  intros Hwf H0. destruct (applyRule_total r b Hwf) as [b' Hb'].
  destruct (applyRule_segments r b b' Hb') as (segs & tail & E1 & E2 & _ & HC).
  rewrite H0 in HC. destruct segs; [|done]. by rewrite Hb', E2, E1.
Qed.

Lemma reduce_no_match (rules : list rule) (b : list N) :
  forallb rule_wf rules = true ->
  Forall (fun r => match_count r b = 0) rules ->
  reduce rules b = Ok b.
Proof.
  intros Hwf HF. induction HF as [|r rules Hr HF IH]; [done|].
  simpl in Hwf. apply andb_true_iff in Hwf as [Hwf1 Hwf2].
  rewrite reduce_cons, applyRule_no_match by done. simpl. by apply IH.
Qed.

(** Every text of a pattern's language starts with the literal prefix of the
    pattern. *)
Lemma in_lang_prefix (r : regex) (w : list N) :
  in_lang r w ->
  exists rest, w = (literal_prefix r).1 ++ rest /\
               ((literal_prefix r).2 = true -> rest = []).
Proof.
  revert w. induction r as [c|negate items| |r1 IH1 r2 IH2|greedy mn r1 IH|n r1 IH];
    intros w; cbn [in_lang literal_prefix].
  - intros ->. by exists [].
  - intros _. by exists w.
  - intros ->. by exists [].
  - intros (w1 & w2 & -> & H1 & H2).
    apply IH1 in H1 as (rest1 & -> & Hr1). apply IH2 in H2 as (rest2 & -> & Hr2).
    destruct (literal_prefix r1) as [p1 [|]], (literal_prefix r2) as [p2 whole2];
      cbn [fst snd] in *.
    + rewrite (Hr1 eq_refl), app_nil_r. exists rest2. by rewrite <- app_assoc.
    + exists (rest1 ++ p2 ++ rest2). by rewrite <- app_assoc.
  - intros _. by exists w.
  - apply IH.
Qed.

(** * Beyond the claims *)

(** X1.  The exit status of the three programs.  A program ends with status
    0 or 1.  Status 0 means that nothing went to the standard error stream
    and that the target file was there, was writable and now holds the buffer
    behind the last rule.  Status 1 means that an error was reported on the
    standard error stream and that the content of every file is what it was
    -- also for final-phase-2-3.py, whose only failure after the write is the
    division by zero on a file without lines, which was written back
    empty. *)
Theorem exit_status_of_main (s : script) (w : world) :
  let o := script_main s w in
  let path := script_path s index_path in
  (exit_status o = 0%Z /\ stderr o = [] /\
   exists text,
     disk w !! path = Some text /\ (path ∉ readonly w) /\
     disk (world_after o) =
       <[path := final_buffer (script_rules s) (universal_newlines text)]> (disk w))
  \/
  (exit_status o = 1%Z /\ stderr o <> [] /\ disk (world_after o) = disk w).
Proof.
  destruct s; cbn [script_main script_path script_rules].
  - rewrite integrate_run. destruct (disk w !! index_path) as [text|] eqn:Hd.
    + cbv zeta. destruct (decide _); [by right|]. left. eauto 10.
    + by right.
  - rewrite complete_run. destruct (disk w !! index_path) as [text|] eqn:Hd.
    + cbv zeta. destruct (decide _); [by right|]. left. eauto 10.
    + by right.
  - rewrite final_run. destruct (disk w !! Final.file_path) as [text|] eqn:Hd.
    + cbv zeta. destruct (decide _); [by right|].
      destruct (Z.eqb_spec (len (splitlines (universal_newlines text))) 0) as [H0|H0].
      * right. cbn [exit_status stderr world_after disk].
        split; [done|]. split; [done|].
        assert (universal_newlines text = []) as Hs.
        { unfold len in H0. destruct (splitlines (universal_newlines text)) eqn:E; [|done].
          by apply splitlines_from_nil in E as [_ E]. }
        rewrite Hs, final_rules_on_empty.
        apply universal_newlines_nil in Hs as ->. by apply insert_id.
      * left. eauto 10.
    + by right.
Qed.

(** X2.  [write_file] then [read_file].  On a writable path, reading back
    what was written gives the content with its line ends normalised; that
    is the content itself exactly when it holds no carriage return, and a
    second round changes nothing more. *)
Theorem write_then_read (path : string) (content : list N) (w : world) :
  path ∉ readonly w ->
  (bind (write_file path content) (fun _ => read_file path) w).1
    = Ok (universal_newlines content) /\
  (universal_newlines content = content <-> CR ∉ content) /\
  universal_newlines (universal_newlines content) = universal_newlines content.
Proof.
  intros Hro. split; [|split].
  - unfold bind, write_file, read_file. destruct (decide _); [done|].
    cbn [disk fst]. by rewrite lookup_insert_eq.
  - by rewrite universal_newlines_fixed, no_CR_not_elem.
  - apply universal_newlines_id, universal_newlines_no_CR.
Qed.

Lemma write_then_read_witness :
  let w := one_file "Index.tsx" [] in
  ("Index.tsx" ∉ readonly w) /\
  (bind (write_file "Index.tsx" (str "a" ++ [CR; LF]))
        (fun _ => read_file "Index.tsx") w).1
    = Ok (universal_newlines (str "a" ++ [CR; LF])) /\
  (universal_newlines (str "a" ++ [CR; LF]) = str "a" ++ [CR; LF]
   <-> CR ∉ str "a" ++ [CR; LF]) /\
  universal_newlines (universal_newlines (str "a" ++ [CR; LF])) =
    universal_newlines (str "a" ++ [CR; LF]).
Proof.
  split; [apply not_elem_of_empty|].
  apply (write_then_read "Index.tsx" (str "a" ++ [CR; LF]) (one_file "Index.tsx" [])).
  apply not_elem_of_empty.
Defined.

(** X3.  A run, then [read_file].  When the file is there and writable,
    reading it after the run gives exactly the buffer the run wrote: no rule
    of any of the three scripts brings a carriage return into the buffer, so
    text mode has nothing to translate. *)
Theorem run_then_read (s : script) (path : string) (w : world) (text : list N) :
  disk w !! script_path s path = Some text ->
  script_path s path ∉ readonly w ->
  (read_file (script_path s path) (script_run s path w).2).1 =
    Ok (final_buffer (script_rules s) (universal_newlines text)) /\
  CR ∉ final_buffer (script_rules s) (universal_newlines text).
Proof.
  intros Hd Hro.
  destruct (run_written s path w text Hd Hro) as (_ & _ & HD & _).
  pose proof (final_buffer_no_CR s text) as HF.
  split.
  - unfold read_file. rewrite HD, lookup_insert_eq. cbn [fst].
    by rewrite universal_newlines_id.
  - by apply no_CR_not_elem.
Qed.

Lemma run_then_read_witness :
  let text := Integrate.api_key_rotation_import ++ [CR; LF] in
  let w := one_file "Index.tsx" text in
  disk w !! script_path IntegratePhase "Index.tsx" = Some text /\
  (script_path IntegratePhase "Index.tsx" ∉ readonly w) /\
  (read_file (script_path IntegratePhase "Index.tsx")
     (script_run IntegratePhase "Index.tsx" w).2).1 =
    Ok (final_buffer (script_rules IntegratePhase) (universal_newlines text)) /\
  CR ∉ final_buffer (script_rules IntegratePhase) (universal_newlines text).
Proof.
  split; [reflexivity|]. split; [apply not_elem_of_empty|].
  apply (run_then_read IntegratePhase "Index.tsx"
           (one_file "Index.tsx" (Integrate.api_key_rotation_import ++ [CR; LF]))
           (Integrate.api_key_rotation_import ++ [CR; LF]));
    [reflexivity | apply not_elem_of_empty].
Defined.

(** X4.  Rules invent no characters.  Whatever list of rules is folded over
    a buffer, every character of the result is a character of the initial
    buffer or one that the replacement text of a rule spells out; a group
    reference can only bring back text of the buffer. *)
Theorem reduce_alphabet (rules : list rule) (b b' : list N) (c : N) :
  reduce rules b = Ok b' -> c ∈ b' ->
  c ∈ b \/ exists r, r ∈ rules /\ c ∈ rule_text r.
Proof. apply reduce_alphabet_rules. Qed.

Lemma reduce_alphabet_witness :
  let rules := [Sub (str "(a+)b") (str "<\1>") []; Replace (str "y") (str "z")] in
  reduce rules (str "xaabyab") = Ok (str "x<aa>z<a>") /\
  ch "z" ∈ str "x<aa>z<a>" /\
  (ch "z" ∈ str "xaabyab" \/ exists r, r ∈ rules /\ ch "z" ∈ rule_text r).
Proof.
  assert (H : ch "z" ∈ str "x<aa>z<a>")
    by (apply list_elem_of_In; vm_compute; auto 20).
  split; [reflexivity|]. split; [exact H|].
  apply (reduce_alphabet
           [Sub (str "(a+)b") (str "<\1>") []; Replace (str "y") (str "z")]
           (str "xaabyab") (str "x<aa>z<a>") (ch "z"));
    [reflexivity | exact H].
Defined.

(** X5.  Two [re.sub] calls are [str.replace] calls in disguise.  The
    display-confirmation step of integrate-phase-2-3.py, whose pattern is
    escaped throughout, replaces the captured block exactly as
    [content.replace] would; and step 6 of final-phase-2-3.py computes, on
    every buffer, what the call-site step of the other two scripts
    computes. *)
Theorem literal_patterns_are_replace (b : list N) :
  Integrate.rules !! 2 = Some integrate_display_rule /\
  applyRule b integrate_display_rule =
    Ok (str_replace b captured_block Integrate.new_display_logic) /\
  Integrate.rules !! 3 = Some rename_rule /\
  Complete.rules !! 3 = Some rename_rule /\
  Final.rules !! 5 = Some final_rename_rule /\
  applyRule b final_rename_rule = applyRule b rename_rule.
Proof.
  split; [reflexivity|]. split; [apply integrate_display_is_replace|].
  split; [reflexivity|]. split; [reflexivity|]. split; [reflexivity|].
  apply final_rename_is_replace.
Qed.

(** X6.  The steps that insert never delete.  Steps 1, 2, 4 and 5 of
    integrate-phase-2-3.py, the same four steps of complete-phase-2-3.py and
    steps 1, 2, 4, 5 and 6 of final-phase-2-3.py return, for every buffer, a
    buffer of which the input is a subsequence: what was there stays, in its
    order. *)
Theorem insertion_steps_keep_text (s : script) (i : nat) (r : rule) (b : list N) :
  insertion_step s i = true ->
  script_rules s !! i = Some r ->
  exists b', applyRule b r = Ok b' /\ b `sublist_of` b'.
Proof.
  intros Hi Hr.
  assert (Hins : forall old q, exists b',
            applyRule b (Replace old (old ++ q)) = Ok b' /\ b `sublist_of` b').
  { intros old q. eexists. split; [reflexivity|].
    apply (str_replace_insertion b old [] q). }
  assert (Hren : exists b', applyRule b rename_rule = Ok b' /\ b `sublist_of` b').
  { eexists. split; [reflexivity|].
    apply (str_replace_insertion b call_site hook_prefix []). }
  assert (Himp : forall repl ins,
            parse_template repl 1 = Ok (TRef 1 :: map TLit ins) ->
            exists b', applyRule b (Sub Final.import_pattern repl []) = Ok b' /\
                       b `sublist_of` b').
  { intros repl ins Ht. cbn [applyRule]. rewrite (import_sub _ _ _ _ Ht).
    eexists. split; [reflexivity|].
    apply (str_replace_insertion b Final.landmark [] ins). }
  destruct s; cbn [insertion_step script_rules] in *;
    apply bool_decide_eq_true in Hi;
    repeat (apply elem_of_cons in Hi as [->|Hi]);
    try (by apply elem_of_nil in Hi);
    injection Hr as <-.
  - exact (Hins _ _).
  - exact (Hins _ _).
  - exact Hren.
  - exact (Hins _ _).
  - exact (Hins _ _).
  - exact (Hins _ _).
  - exact Hren.
  - exact (Hins _ _).
  - exact (Himp _ _ import_addition_template).
  - exact (Himp _ _ import_addition_2_template).
  - exact (Hins _ _).
  - exact (Hins _ _).
  - change (exists b', applyRule b final_rename_rule = Ok b' /\ b `sublist_of` b').
    rewrite final_rename_is_replace. exact Hren.
Qed.

Lemma insertion_steps_keep_text_witness :
  let b := str "  usePlayerManager(handleDisplayConfirmationNeeded, x);" in
  insertion_step FinalPhase 5 = true /\
  script_rules FinalPhase !! 5 = Some final_rename_rule /\
  exists b', applyRule b final_rename_rule = Ok b' /\ b `sublist_of` b'.
Proof.
  split; [reflexivity|]. split; [reflexivity|].
  apply (insertion_steps_keep_text FinalPhase 5 final_rename_rule
           (str "  usePlayerManager(handleDisplayConfirmationNeeded, x);"));
    reflexivity.
Defined.

(** X7.  [re.sub(pattern, '', content)] only deletes.  Whatever the pattern
    is, the result of a substitution by the empty string is a subsequence of
    the subject.  Steps 5 and 6 of complete-phase-2-3.py are of this kind. *)
Theorem removal_only_deletes (pattern : list N) (flags : list flag)
    (b b' : list N) :
  applyRule b (Sub pattern [] flags) = Ok b' -> b' `sublist_of` b.
Proof.
  intros H. destruct (applyRule_segments _ _ _ H) as (segs & tail & -> & -> & HF & _).
  unfold before, after. apply sublist_app; [|done]. clear H.
  induction HF as [|x segs Hx HF IH]; simpl; [done|].
  apply sublist_app; [|done].
  destruct Hx as (rx & g & t & gs & _ & Ht & _ & ->).
  cbn [parse_template] in Ht. apply Ok_inj in Ht as <-.
  simpl. rewrite app_nil_r. by apply sublist_inserts_r.
Qed.

Lemma removal_only_deletes_witness :
  let b := str
    "keep  // Enhanced video end handling X  // Emergency recovery event listener Y], [setState, toast]);tail" in
  Complete.rules !! 6 = Some (Sub Complete.old_storage_pattern [] []) /\
  applyRule b (Sub Complete.old_storage_pattern [] []) = Ok (str "keeptail") /\
  str "keeptail" `sublist_of` b.
Proof.
  split; [reflexivity|]. split; [vm_compute; reflexivity|].
  apply (removal_only_deletes Complete.old_storage_pattern []).
  vm_compute. reflexivity.
Defined.

(** X8.  The line arithmetic of [str.replace].  For a non-empty locator,
    the replacement changes the number of pieces of [split('\n')] by the
    number of occurrences times the difference between the pieces of the new
    text and those of the old. *)
Theorem replace_line_delta (s old new : list N) :
  old <> [] ->
  (len (str_split (str_replace s old new) LF) - len (str_split s LF) =
   Z.of_nat (str_count s old) *
   (len (str_split new LF) - len (str_split old LF)))%Z.
Proof. apply str_replace_line_delta. Qed.

Lemma replace_line_delta_witness :
  let s := str "a;b;c" in
  str ";" <> [] /\
  (len (str_split (str_replace s (str ";") [LF; LF]) LF) - len (str_split s LF) =
   Z.of_nat (str_count s (str ";")) *
   (len (str_split [LF; LF] LF) - len (str_split (str ";") LF)))%Z.
Proof.
  split; [discriminate|].
  apply (replace_line_delta (str "a;b;c") (str ";") [LF; LF]). discriminate.
Defined.

(** X9.  The call-site step is not idempotent.  Its replacement ends with
    its locator, so on every buffer a second application finds each call site
    again and puts a second [displayConfirmation.] in front of it. *)
Theorem rename_rule_applied_twice (b : list N) :
  exists gaps tail,
    length gaps = str_count b call_site /\
    b = flat_map (fun g => g ++ call_site) gaps ++ tail /\
    applyRule b rename_rule =
      Ok (flat_map (fun g => g ++ hook_prefix ++ call_site) gaps ++ tail) /\
    reduce [rename_rule; rename_rule] b =
      Ok (flat_map (fun g => g ++ hook_prefix ++ hook_prefix ++ call_site) gaps
          ++ tail).
Proof.
  destruct (str_replace_gaps b call_site (hook_prefix ++ call_site))
    as (gaps & tail & E1 & E2 & HF & HT & HC); [done|].
  exists gaps, tail. split; [done|]. split; [done|].
  assert (E : applyRule b rename_rule =
    Ok (flat_map (fun g => g ++ hook_prefix ++ call_site) gaps ++ tail)).
  { unfold rename_rule. cbn [applyRule]. f_equal. exact E2. }
  split; [exact E|].
  rewrite reduce_cons, E. cbn [rbind]. rewrite reduce_cons.
  unfold rename_rule at 1. cbn [applyRule rbind].
  change (str "displayConfirmation.handleDisplayConfirmationNeeded,")
    with (hook_prefix ++ call_site).
  rewrite str_replace_behind_landmark; [done | done | | done].
  eapply Forall_impl; [exact HF|]. intros g Hg.
  apply gap_before_prefixed;
    [done | apply hook_prefix_gap | apply rename_overlap_free].
Qed.

(** X10.  Step 5 of final-phase-2-3.py lives on step 4.  On a buffer that
    does not hold the storage-sync call yet, steps 4 and 5 in their textual
    order leave every display-confirmation hook followed by the storage-sync
    call and the player-initialization call; in the opposite order step 5
    finds nothing and the player-initialization call is missing. *)
Theorem storage_then_player (b : list N) :
  str_count b Final.storage_sync_addition = 0 ->
  Final.rules !! 3 = Some storage_step /\
  Final.rules !! 4 = Some player_step /\
  exists gaps tail,
    length gaps = str_count b display_hook /\
    b = flat_map (fun g => g ++ display_hook) gaps ++ tail /\
    reduce [storage_step; player_step] b =
      Ok (flat_map (fun g => g ++ display_hook ++ Final.storage_sync_addition
                               ++ Final.player_init_addition) gaps ++ tail) /\
    reduce [player_step; storage_step] b =
      Ok (flat_map (fun g => g ++ display_hook ++ Final.storage_sync_addition)
            gaps ++ tail).
Proof.
  intros H0. split; [reflexivity|]. split; [reflexivity|].
  apply str_count_zero in H0; [|done].
  destruct (str_replace_gaps b display_hook
              (display_hook ++ Final.storage_sync_addition))
    as (gaps & tail & E1 & E2 & HF & HT & HC); [done|].
  exists gaps, tail. split; [done|]. split; [done|].
  assert (E : str_replace b display_hook
                (display_hook ++ Final.storage_sync_addition) =
              flat_map (fun g => g ++ display_hook ++ Final.storage_sync_addition)
                gaps ++ tail).
  { exact E2. }
  split.
  - rewrite reduce_cons. unfold storage_step at 1. cbn [applyRule rbind].
    rewrite reduce_cons. unfold player_step at 1. cbn [applyRule rbind].
    rewrite E. rewrite E1 in H0.
    apply find_flat_map_None in H0 as [HG HT'].
    rewrite str_replace_behind_landmark; [|done| |done].
    + reflexivity.
    + eapply Forall_impl; [exact HG|]. intros g Hg. simpl in Hg.
      apply gap_before_behind;
        [done | apply storage_not_in_hook | apply hook_storage_straddle_free].
  - rewrite reduce_cons. unfold player_step at 1. cbn [applyRule rbind].
    rewrite (str_replace_unfold b Final.storage_sync_addition), H0 by done.
    rewrite reduce_cons. unfold storage_step at 1. cbn [applyRule rbind].
    rewrite E. done.
Qed.

Lemma storage_then_player_witness :
  let b := str "{" ++ display_hook ++ str "}" in
  str_count b Final.storage_sync_addition = 0 /\
  Final.rules !! 3 = Some storage_step /\
  Final.rules !! 4 = Some player_step /\
  exists gaps tail,
    length gaps = str_count b display_hook /\
    b = flat_map (fun g => g ++ display_hook) gaps ++ tail /\
    reduce [storage_step; player_step] b =
      Ok (flat_map (fun g => g ++ display_hook ++ Final.storage_sync_addition
                               ++ Final.player_init_addition) gaps ++ tail) /\
    reduce [player_step; storage_step] b =
      Ok (flat_map (fun g => g ++ display_hook ++ Final.storage_sync_addition)
            gaps ++ tail).
Proof.
  split; [vm_compute; reflexivity|].
  apply (storage_then_player (str "{" ++ display_hook ++ str "}")).
  vm_compute. reflexivity.
Defined.

(** X11.  Two ways of counting lines.  integrate-phase-2-3.py and
    complete-phase-2-3.py count the pieces of [split('\n')],
    final-phase-2-3.py counts [splitlines()].  On a text whose only line
    boundary is the newline the first count is the second plus one when the
    text is empty or ends with a newline, and equal to it otherwise. *)
Theorem split_versus_splitlines (s : list N) :
  Forall (fun c => is_linebreak c = true -> c = LF) s ->
  line_count IntegratePhase s = line_count CompletePhase s /\
  line_count IntegratePhase s =
    (line_count FinalPhase s + (if no_open_line s then 1 else 0))%Z.
Proof.
  intros HF. split; [done|]. cbn [line_count]. unfold len, splitlines, no_open_line.
  rewrite <- (splitlines_from_length [] s HF).
  destruct (last s) as [c|]; [destruct (N.eqb c LF)|]; lia.
Qed.

Lemma split_versus_splitlines_witness :
  let s := str "a" ++ [LF] ++ str "b" ++ [LF] in
  Forall (fun c => is_linebreak c = true -> c = LF) s /\
  line_count IntegratePhase s = line_count CompletePhase s /\
  line_count IntegratePhase s =
    (line_count FinalPhase s + (if no_open_line s then 1 else 0))%Z.
Proof.
  assert (H : Forall (fun c => is_linebreak c = true -> c = LF)
                (str "a" ++ [LF] ++ str "b" ++ [LF])).
  { repeat constructor; by vm_compute. }
  split; [exact H|].
  apply (split_versus_splitlines (str "a" ++ [LF] ++ str "b" ++ [LF]) H).
Defined.

(** X12.  A run in which no rule matches still rewrites the file: the file
    ends up holding the text with its line ends normalised.  So such a run
    leaves the disk as it was exactly when the file held no carriage
    return. *)
Theorem run_without_matches (s : script) (path : string) (w : world)
    (text : list N) :
  disk w !! script_path s path = Some text ->
  script_path s path ∉ readonly w ->
  Forall (fun r => match_count r (universal_newlines text) = 0) (script_rules s) ->
  disk (script_run s path w).2 =
    <[script_path s path := universal_newlines text]> (disk w) /\
  (disk (script_run s path w).2 = disk w <-> CR ∉ text).
Proof.
  intros Hd Hro H0.
  destruct (run_written s path w text Hd Hro) as (HR & _ & HD & _).
  rewrite (reduce_no_match _ _ (script_rules_wf s) H0) in HR.
  apply Ok_inj in HR. rewrite <- HR in HD. split; [done|].
  rewrite HD, <- no_CR_not_elem. split.
  - intros E. apply (f_equal (fun m => m !! script_path s path)) in E.
    rewrite lookup_insert_eq, Hd in E. injection E as E.
    by apply universal_newlines_fixed.
  - intros Hcr. rewrite universal_newlines_id by done. by apply insert_id.
Qed.

Lemma run_without_matches_witness :
  let text := str "const x = 1;" ++ [CR; LF] in
  let w := one_file "Index.tsx" text in
  disk w !! script_path IntegratePhase "Index.tsx" = Some text /\
  (script_path IntegratePhase "Index.tsx" ∉ readonly w) /\
  Forall (fun r => match_count r (universal_newlines text) = 0)
    (script_rules IntegratePhase) /\
  disk (script_run IntegratePhase "Index.tsx" w).2 =
    <[script_path IntegratePhase "Index.tsx" := universal_newlines text]> (disk w) /\
  (disk (script_run IntegratePhase "Index.tsx" w).2 = disk w <-> CR ∉ text).
Proof.
  assert (H : Forall (fun r => match_count r
                        (universal_newlines (str "const x = 1;" ++ [CR; LF])) = 0)
                (script_rules IntegratePhase)).
  { repeat constructor; vm_compute; reflexivity. }
  split; [reflexivity|]. split; [apply not_elem_of_empty|]. split; [exact H|].
  apply (run_without_matches IntegratePhase "Index.tsx"
           (one_file "Index.tsx" (str "const x = 1;" ++ [CR; LF]))
           (str "const x = 1;" ++ [CR; LF]));
    [reflexivity | apply not_elem_of_empty | exact H].
Defined.

(** X13.  What final-phase-2-3.py reports as the original line count is the
    [splitlines] count of the file as it is stored: normalising the line ends
    does not change the lines.  The [split('\n')] count of the other two
    scripts does depend on it (a lone carriage return becomes a line
    boundary only once the text is read). *)
Theorem splitlines_sees_through_newlines (text : list N) :
  line_count FinalPhase (universal_newlines text) = line_count FinalPhase text /\
  splitlines (universal_newlines text) = splitlines text /\
  line_count IntegratePhase (universal_newlines [CR]) <>
    line_count IntegratePhase [CR].
Proof.
  cbn [line_count]. unfold splitlines. rewrite splitlines_from_universal.
  split; [done|]. split; [done|]. vm_compute. intros [=].
Qed.

(** X14.  The import-insertion rule run [n] times.  The rule never raises,
    it neither creates nor destroys occurrences of its landmark, and every
    application adds three lines per occurrence: after [n] applications the
    buffer has grown by [3 * n] lines for every landmark line, so repeated
    runs never settle. *)
Theorem hook_import_rule_iterated (n : nat) (b : list N) :
  exists b',
    reduce (replicate n hook_import_rule) b = Ok b' /\
    str_count b' Integrate.api_key_rotation_import =
      str_count b Integrate.api_key_rotation_import /\
    len (str_split b' LF) =
      (len (str_split b LF) +
       3 * Z.of_nat n * Z.of_nat (str_count b Integrate.api_key_rotation_import))%Z.
Proof.
  revert b. induction n as [|n IH]; intros b.
  - exists b. split; [done|]. split; [done|]. lia.
  - cbn [replicate]. rewrite reduce_cons. unfold hook_import_rule at 1.
    cbn [applyRule rbind].
    set (L := Integrate.api_key_rotation_import).
    set (ins := [LF] ++ Integrate.hook_imports).
    destruct (IH (str_replace b L (L ++ ins))) as (b' & E & HC & HL).
    exists b'. split; [exact E|].
    assert (Hcount : str_count (str_replace b L (L ++ ins)) L = str_count b L).
    { destruct (str_replace_gaps b L (L ++ ins))
        as (gaps & tail & E1 & E2 & HF & HT & HC'); [done|].
      rewrite HC'.
      transitivity (str_count (flat_map (fun g => g ++ L ++ ins) gaps ++ tail) L).
      { by rewrite E2. }
      apply str_count_after_insert;
        [done | done | done | apply hook_imports_cross_free]. }
    fold L in HC, HL. rewrite Hcount in HC, HL. split; [exact HC|].
    rewrite HL.
    pose proof (str_replace_line_delta b L (L ++ ins)) as HD.
    replace (len (str_split (L ++ ins) LF) - len (str_split L LF))%Z with 3%Z in HD
      by (vm_compute; reflexivity).
    specialize (HD ltac:(done)). lia.
Qed.

(** X15.  No header, no change.  A well-formed rule leaves alone every
    buffer in which its header does not occur -- the locator of a
    [str.replace], the literal text that the pattern of a [re.sub] starts
    with: the rule returns the buffer as it is and its locator matches
    nowhere. *)
Theorem rule_needs_header (r : rule) (b : list N) :
  rule_wf r = true -> find b (rule_header r) = None ->
  applyRule b r = Ok b /\ match_count r b = 0.
Proof.
  intros Hwf Hno. destruct (applyRule_total r b Hwf) as [b' Hb'].
  destruct (applyRule_segments r b b' Hb') as (segs & tail & E1 & E2 & HF & HC).
  destruct segs as [|x segs].
  - rewrite <- HC. split; [|done]. by rewrite Hb', E2, E1.
  - exfalso. apply Forall_cons in HF as [Hx _].
    assert (Hm : exists rest, matched x = rule_header r ++ rest).
    { destruct r as [old new|pattern repl flags]; simpl in *.
      - destruct Hx as [-> _]. exists []. by rewrite app_nil_r.
      - destruct Hx as (rx & g & t & gs & Hp & _ & Hin & _). rewrite Hp.
        apply in_lang_prefix in Hin as (rest & -> & _). by exists rest. }
    destruct Hm as [rest Hm].
    pose proof (find_None _ _ (length (gap x)) Hno) as Hn.
    rewrite E1 in Hn. unfold before in Hn. cbn [flat_map] in Hn.
    rewrite Hm, <- !app_assoc, drop_app_length, startswith_app in Hn. done.
Qed.

Lemma rule_needs_header_witness :
  let r := Sub Complete.old_storage_pattern [] [] in
  let b := str "  // Enhanced video end handlin], [setState, toast]);" in
  rule_header r = str "  // Enhanced video end handling" /\
  rule_wf r = true /\ find b (rule_header r) = None /\
  applyRule b r = Ok b /\ match_count r b = 0.
Proof.
  split; [vm_compute; reflexivity|].
  split; [vm_compute; reflexivity|]. split; [vm_compute; reflexivity|].
  apply (rule_needs_header (Sub Complete.old_storage_pattern [] [])
           (str "  // Enhanced video end handlin], [setState, toast]);"));
    vm_compute; reflexivity.
Defined.

(** X16.  A run touches its target only.  Whatever a run does, every other
    file keeps its content, no path changes its write protection, and
    nothing that was on the console or in the log of writes is taken
    back. *)
Theorem run_touches_target_only (s : script) (path other : string) (w : world) :
  other <> script_path s path ->
  disk (script_run s path w).2 !! other = disk w !! other /\
  readonly (script_run s path w).2 = readonly w /\
  console w `prefix_of` console (script_run s path w).2 /\
  writes w `prefix_of` writes (script_run s path w).2.
Proof.
  intros Hne.
  destruct s; cbn [script_run script_path] in *.
  - rewrite integrate_run. destruct (disk w !! path) as [text|].
    + cbv zeta. destruct (decide _); cbn [snd disk readonly console writes].
      * repeat split; [by apply prefix_app_r | done].
      * rewrite lookup_insert_ne by done.
        repeat split; by apply prefix_app_r.
    + cbn [snd disk readonly console writes].
      repeat split; [by apply prefix_app_r | done].
  - rewrite complete_run. destruct (disk w !! path) as [text|].
    + cbv zeta. destruct (decide _); cbn [snd disk readonly console writes].
      * repeat split; [by apply prefix_app_r | done].
      * rewrite lookup_insert_ne by done.
        repeat split; by apply prefix_app_r.
    + cbn [snd disk readonly console writes].
      repeat split; [by apply prefix_app_r | done].
  - rewrite final_run. destruct (disk w !! Final.file_path) as [text|].
    + cbv zeta. destruct (decide _); [|destruct (Z.eqb _ 0)];
        cbn [snd disk readonly console writes].
      * repeat split; [by apply prefix_app_r | done].
      * rewrite lookup_insert_ne by done.
        repeat split; by apply prefix_app_r.
      * rewrite lookup_insert_ne by done.
        repeat split; by apply prefix_app_r.
    + cbn [snd disk readonly console writes].
      repeat split; [by apply prefix_app_r | done].
Qed.

Lemma run_touches_target_only_witness :
  let w := World {[ Final.file_path := str "x"; "README.md" := str "y" ]} ∅ [] [] in
  "README.md" <> script_path FinalPhase "ignored" /\
  disk (script_run FinalPhase "ignored" w).2 !! "README.md" = disk w !! "README.md" /\
  readonly (script_run FinalPhase "ignored" w).2 = readonly w /\
  console w `prefix_of` console (script_run FinalPhase "ignored" w).2 /\
  writes w `prefix_of` writes (script_run FinalPhase "ignored" w).2.
Proof.
  split; [discriminate|].
  apply (run_touches_target_only FinalPhase "ignored" "README.md"
           (World {[ Final.file_path := str "x"; "README.md" := str "y" ]} ∅ [] [])).
  discriminate.
Defined.
